(** * DirichletSVGP: the Dirichlet likelihood of [custom_likelihoods.py]

    A shallow embedding of the class [Dirichlet] and of the TensorFlow
    primitives its five methods call, followed by the properties of the
    log-density, the two conditional moments, the sampler and the
    constructor.

    Numbers.  A float64 tensor entry is a value of [num]: a real number or
    one of the three IEEE 754 special values (+inf, -inf, NaN).  Arithmetic
    on the special values follows IEEE 754, and zero carries no sign.  The
    class is embedded twice.  In the first embedding arithmetic on finite
    values is exact real arithmetic: rounding, overflow and underflow are
    idealised away.  In the second, of the two moments and the sampler,
    every arithmetic result passes through the range of float64: it
    overflows to an infinity or underflows to zero where float64 does, and
    only the rounding inside the range stays idealised.

    Tensors.  A rank-2 tensor is a list of rows, a rank-1 tensor a list of
    entries.  Binary operators broadcast the way TensorFlow does and raise
    [InvalidArgumentError] on incompatible shapes.

    Objects.  A Python instance is its attribute dictionary, a finite map
    from attribute names to values. *)

From Stdlib Require Import Reals Lra Lia ZArith List.
From stdpp Require Import gmap strings list.

Open Scope R_scope.

(** ** Errors *)

Inductive error : Type :=
  | AttributeError (name : string)
  | TypeError
  | InvalidArgumentError.

Inductive result (A : Type) : Type :=
  | Ok (a : A)
  | Raise (e : error).

Arguments Ok {A} a.
Arguments Raise {A} e.

Definition bind {A B : Type} (m : result A) (k : A -> result B) : result B :=
  match m with
  | Ok a => k a
  | Raise e => Raise e
  end.

Notation "'let*' x ':=' m 'in' k" := (bind m (fun x => k))
  (at level 10, x name, m at level 100, k at level 200).

Definition succeeds {A : Type} (m : result A) : Prop := exists a, m = Ok a.

(** ** Numbers *)

Inductive num : Type :=
  | Finite (r : R)
  | PosInf
  | NegInf
  | NaN.

Coercion Finite : R >-> num.

Definition is_finite (x : num) : Prop := exists r : R, x = Finite r.

(** [r * inf] for a finite [r]. *)
Definition signed_inf (r : R) : num :=
  if Req_EM_T r 0 then NaN else if Rlt_dec 0 r then PosInf else NegInf.

Definition fopp (x : num) : num :=
  match x with
  | Finite a => Finite (- a)
  | PosInf => NegInf
  | NegInf => PosInf
  | NaN => NaN
  end.

Definition fadd (x y : num) : num :=
  match x, y with
  | NaN, _ | _, NaN => NaN
  | Finite a, Finite b => Finite (a + b)
  | PosInf, NegInf | NegInf, PosInf => NaN
  | PosInf, _ | _, PosInf => PosInf
  | NegInf, _ | _, NegInf => NegInf
  end.

Definition fsub (x y : num) : num := fadd x (fopp y).

Definition fmul (x y : num) : num :=
  match x, y with
  | NaN, _ | _, NaN => NaN
  | Finite a, Finite b => Finite (a * b)
  | Finite a, PosInf | PosInf, Finite a => signed_inf a
  | Finite a, NegInf | NegInf, Finite a => signed_inf (- a)
  | PosInf, PosInf | NegInf, NegInf => PosInf
  | PosInf, NegInf | NegInf, PosInf => NegInf
  end.

Definition fdiv (x y : num) : num :=
  match x, y with
  | NaN, _ | _, NaN => NaN
  | Finite a, Finite b => if Req_EM_T b 0 then signed_inf a else Finite (a / b)
  | Finite _, (PosInf | NegInf) => Finite 0
  | PosInf, Finite b => if Rlt_dec b 0 then NegInf else PosInf
  | NegInf, Finite b => if Rlt_dec b 0 then PosInf else NegInf
  | (PosInf | NegInf), (PosInf | NegInf) => NaN
  end.

(** Python's [x ** n] for a literal natural exponent. *)
Fixpoint fpow (x : num) (n : nat) : num :=
  match n with
  | O => Finite 1
  | S n' => fmul x (fpow x n')
  end.

Definition fexp (x : num) : num :=
  match x with
  | Finite a => Finite (exp a)
  | PosInf => PosInf
  | NegInf => Finite 0
  | NaN => NaN
  end.

Definition flog (x : num) : num :=
  match x with
  | Finite a =>
      if Req_EM_T a 0 then NegInf
      else if Rlt_dec 0 a then Finite (ln a) else NaN
  | PosInf => PosInf
  | NegInf => NaN
  | NaN => NaN
  end.

(** The comparison [x == 0.]: false on NaN and on the infinities. *)
Definition is_zero (x : num) : bool :=
  match x with
  | Finite a => if Req_EM_T a 0 then true else false
  | _ => false
  end.

(** Modelled from the spec: [tf.math.xlogy] is TensorFlow's and not under
    src/; the spec describes it as the multiply that treats 0 * log(0) as 0:
    it returns 0 when [x == 0] and [x * log y] otherwise. *)
Definition xlogy (x y : num) : num :=
  if is_zero x then Finite 0 else fmul x (flog y).

(** ** Tensors *)

Abbreviation vector := (list num).
Abbreviation tensor := (list (list num)).

Definition of_reals (v : list R) : vector := map Finite v.
Definition of_matrix (M : list (list R)) : tensor := map of_reals M.

Definition Rsum (v : list R) : R := fold_right Rplus 0 v.

(** [tf.reduce_sum] over the entries of one row. *)
Definition row_sum (v : vector) : num := fold_right fadd (Finite 0) v.

(** [tf.reduce_sum(t, axis=-1)]. *)
Definition tf_reduce_sum (t : tensor) : vector := map row_sum t.

(** [v[..., tf.newaxis]]: shape [N] becomes shape [N, 1]. *)
Definition newaxis (v : vector) : tensor := map (fun s => [s]) v.

(** [tf.reduce_sum(t, axis=-1, keepdims=True)]. *)
Definition tf_reduce_sum_keepdims (t : tensor) : tensor :=
  map (fun row => [row_sum row]) t.

(** [tf.exp], element-wise. *)
Definition tf_exp (t : tensor) : tensor := map (map fexp) t.

(** A tensor combined with a Python scalar, element-wise. *)
Definition scalar_op (op : num -> num -> num) (t : tensor) (c : num) : tensor :=
  map (map (fun x => op x c)) t.

(** Broadcasting of a binary operator along one axis: equal lengths pair
    up, a length of 1 is stretched, anything else is an error. *)
Definition bcast (op : num -> num -> num) (xs ys : vector) : result vector :=
  if Nat.eqb (length xs) (length ys) then Ok (zip_with op xs ys)
  else match xs, ys with
       | _, [y] => Ok (map (fun x => op x y) xs)
       | [x], _ => Ok (map (op x) ys)
       | _, _ => Raise InvalidArgumentError
       end.

Fixpoint zip_rows (op : num -> num -> num) (A B : tensor) : result tensor :=
  match A, B with
  | a :: A', b :: B' =>
      let* r := bcast op a b in
      let* rest := zip_rows op A' B' in
      Ok (r :: rest)
  | _, _ => Ok []
  end.

(** The same along both axes of rank-2 tensors. *)
Definition bcast2 (op : num -> num -> num) (A B : tensor) : result tensor :=
  if Nat.eqb (length A) (length B) then zip_rows op A B
  else match A, B with
       | _, [b] => zip_rows op A (repeat b (length A))
       | [a], _ => zip_rows op (repeat a (length B)) B
       | _, _ => Raise InvalidArgumentError
       end.

(** [tf.math.xlogy] on tensors. *)
Definition tf_math_xlogy (A Y : tensor) : result tensor := bcast2 xlogy A Y.

(** [t ** n] for a literal natural exponent, element-wise. *)
Definition tpow (t : tensor) (n : nat) : tensor := map (map (fun x => fpow x n)) t.

(** Element-wise arithmetic of two rank-2 tensors. *)
Definition tsub (A B : tensor) : result tensor := bcast2 fsub A B.
Definition tmul (A B : tensor) : result tensor := bcast2 fmul A B.
Definition tdiv (A B : tensor) : result tensor := bcast2 fdiv A B.

(** ** Python values and instances *)

Inductive value : Type :=
  | VInt (n : Z)
  | VFun (f : tensor -> tensor)
  | VOther (repr : string).

Abbreviation obj := (gmap string value).
Abbreviation kwargs := (gmap string value).

(** ** The class [Dirichlet] *)

Section Dirichlet.

(** Euler's Gamma function on the reals; the Standard Library has none, so
    the development is parametric in it. *)
Variable Gamma : R -> R.

(** [gpflow.likelihoods.MonteCarloLikelihood.__init__(self, **kwargs)],
    the framework's constructor: it may reject its arguments, and it may
    set any attributes. *)
Variable super_init : obj -> kwargs -> result obj.

(** The state of TensorFlow's random number generator, and
    [tf.random.gamma(shape=[n], alpha, dtype, seed)], which returns its
    draws and the generator's next state. *)
Variable rng : Type.
Variable tf_random_gamma : rng -> nat -> vector -> option Z -> tensor * rng.

(** The poles of Gamma: zero and the negative integers. *)
Definition is_pole (a : R) : bool :=
  if Rle_dec a 0
  then (if Req_EM_T (IZR (up a)) (a + 1) then true else false)
  else false.

(** [tf.math.lgamma]: the log of the absolute value of Gamma, +inf at the
    poles. *)
Definition lgamma (x : num) : num :=
  match x with
  | Finite a => if is_pole a then PosInf else flog (Finite (Rabs (Gamma a)))
  | PosInf => PosInf
  | NegInf => PosInf
  | NaN => NaN
  end.

(** Modelled from the spec: [tf.math.lbeta] is TensorFlow's and not under
    src/; the spec gives the multivariate log-beta of a row as the sum of
    lgamma over its entries minus lgamma of their sum. *)
Definition lbeta_row (v : vector) : num :=
  fsub (row_sum (map lgamma v)) (lgamma (row_sum v)).

Definition tf_math_lbeta (t : tensor) : vector := map lbeta_row t.

Definition __init__ (self : obj) (invlink : option (tensor -> tensor))
    (kw : kwargs) : result obj :=
  let* self := super_init self kw in
  let self := <["invlink" := VFun (default tf_exp invlink)]> self in
  let self := <["num_monte_carlo_points" := VInt 100]> self in
  Ok self.

Definition _log_prob (concentration y : tensor) : result vector :=
  let* xl := tf_math_xlogy (scalar_op fsub concentration (Finite 1)) y in
  bcast fsub (tf_reduce_sum xl) (tf_math_lbeta concentration).

Definition _sample_dir (concentration : vector) (n : nat) (seed : option Z)
    (g : rng) : result tensor * rng :=
  let (gamma_sample, g') := tf_random_gamma g n concentration seed in
  (tdiv gamma_sample (tf_reduce_sum_keepdims gamma_sample), g').

(** The attribute read [self.invlink], followed by a call. *)
Definition self_invlink (self : obj) : result (tensor -> tensor) :=
  match self !! "invlink" with
  | Some (VFun f) => Ok f
  | Some _ => Raise TypeError
  | None => Raise (AttributeError "invlink")
  end.

Definition log_prob (self : obj) (F Y : tensor) : result vector :=
  let* invlink := self_invlink self in
  _log_prob (invlink F) Y.

Definition conditional_mean (self : obj) (F : tensor) : result tensor :=
  let* invlink := self_invlink self in
  let concentration := invlink F in
  let concentration_sum := newaxis (tf_reduce_sum concentration) in
  tdiv concentration concentration_sum.

Definition conditional_variance (self : obj) (F : tensor) : result tensor :=
  let* invlink := self_invlink self in
  let concentration := invlink F in
  let c_sum := newaxis (tf_reduce_sum concentration) in
  let* d := tsub c_sum concentration in
  let* numer := tmul concentration d in
  let* denom := tmul (tpow c_sum 2) (scalar_op fadd c_sum (Finite 1)) in
  tdiv numer denom.

End Dirichlet.

Arguments _sample_dir {rng} tf_random_gamma concentration n seed g.

(** ** The reference density

    The textbook log-density of the Dirichlet distribution with parameter
    [alpha] at the point [y], written with plain multiplication and the real
    logarithm. *)

Definition dirichlet_log_density (Gamma : R -> R) (alpha y : list R) : R :=
  Rsum (zip_with (fun a yk => (a - 1) * ln yk) alpha y)
  - (Rsum (map (fun a => ln (Gamma a)) alpha) - ln (Gamma (Rsum alpha))).

(** Two tensors of the same shape: as many rows, and rows of equal length. *)
Definition same_shape (A B : tensor) : Prop :=
  Forall2 (fun a b => length a = length b) A B.

(** A coordinate is regular for the density when its concentration is
    positive and either its label is positive or its concentration is 1. *)
Definition regular (ak yk : R) : Prop := 0 < ak /\ (0 < yk \/ ak = 1).

(** A row the log-density is not defined on: a label that is zero or
    negative where the concentration is a real number other than 1, or a
    concentration entry equal to 0. *)
Definition malformed_row (a y : vector) : Prop :=
  (exists (k : nat) (r yk : R),
      a !! k = Some (Finite r) /\ y !! k = Some (Finite yk) /\ r <> 1 /\ yk <= 0)
  \/ (exists k : nat, a !! k = Some (Finite 0)).


(** ** Instances of the parameters

    A function with the functional equation of Gamma, a framework
    constructor in the manner of gpflow's and a seeded sampler; they show the
    assumptions made below on the parameters to be consistent. *)

(** [(x - 1) (x - 2) ... (x - n)]. *)
Fixpoint falling (x : R) (n : nat) : R :=
  match n with
  | O => 1
  | S m => (x - INR (S m)) * falling x m
  end.

(** [1/x] below 1, and from 1 on the product of [x - k] down to [[1, 2)]:
    it is 1 on [[1, 2)], multiplies by [x] from [x] to [x + 1], and takes the
    value [(n - 1)!] at a positive integer [n]. *)
Definition Gamma_model (x : R) : R :=
  if Rlt_dec x 1 then / x else falling x (Z.to_nat (up x - 2)).

(** Stores the keyword arguments as attributes and sets the sample count
    of gpflow's [MonteCarloLikelihood], 10000. *)
Definition gpflow_init (self : obj) (kw : kwargs) : result obj :=
  Ok (<["num_monte_carlo_points" := VInt 10000]> (kw ∪ self)).

(** A sampler whose state is a counter: a seeded call ignores the counter,
    an unseeded call uses and advances it. *)
Definition counter_gamma (g : nat) (n : nat) (alpha : vector)
    (seed : option Z) : tensor * nat :=
  match seed with
  | Some s => (repeat (map (fun _ => Finite (1 + IZR (Z.abs s))) alpha) n, g)
  | None => (repeat (map (fun _ => Finite (1 + INR g)) alpha) n, S g)
  end.

(** The call [Dirichlet(invlink, **kwargs)] on a fresh instance. *)
Definition Dirichlet_new (super_init : obj -> kwargs -> result obj)
    (invlink : option (tensor -> tensor)) (kw : kwargs) : result obj :=
  __init__ super_init ∅ invlink kw.

(** ** The formulas of the specification

    Each operation row by row, as the specification words it; the methods
    above are compared with these. *)

(** [alpha / sum(alpha)]. *)
Definition spec_mean_row (alpha : vector) : vector :=
  map (fun a => fdiv a (row_sum alpha)) alpha.

(** [alpha_k (S - alpha_k) / (S^2 (S + 1))] with [S] the sum of the row. *)
Definition spec_variance_row (alpha : vector) : vector :=
  let S := row_sum alpha in
  map (fun a => fdiv (fmul a (fsub S a)) (fmul (fmul S S) (fadd S (Finite 1)))) alpha.

(** [sum_k xlogy(alpha_k - 1, y_k) - log B(alpha)]. *)
Definition spec_log_prob_row (Gamma : R -> R) (alpha y : vector) : num :=
  fsub (row_sum (zip_with (fun a yk => xlogy (fsub a (Finite 1)) yk) alpha y))
       (fsub (row_sum (map (lgamma Gamma) alpha)) (lgamma Gamma (row_sum alpha))).

(** A sampler in the manner of the TensorFlow kernel: the draws depend on
    the seed and on a counter that the kernel advances at every call, seeded
    or not. *)
Definition kernel_gamma (g : nat) (n : nat) (alpha : vector)
    (seed : option Z) : tensor * nat :=
  (repeat (map (fun a => match a with
                         | Finite r =>
                             Finite (Rabs r + 1 + INR g
                                     + IZR (Z.abs (default 0%Z seed)))
                         | _ => Finite (1 + INR g)
                         end) alpha) n,
   S g).

(** ** The range of float64

    The two moments and the sampler are embedded a second time with the
    range of float64:
    every arithmetic result of the backend passes through a rounding [rnd].
    [to_float64] is the rounding of float64 as far as its range goes: a
    result of magnitude [ovf] or more (half an ulp above the largest float)
    overflows to an infinity, a result of magnitude [unf] or less (half the
    smallest subnormal) underflows to zero, and a result in between is kept
    as it is (rounding inside the range stays idealised).  With the identity
    for [rnd] these are [conditional_mean], [conditional_variance] and
    [_sample_dir] above. *)

Definition ovf : R := (2 - / 2 ^ 53) * 2 ^ 1023.
Definition unf : R := / 2 ^ 1075.

Definition to_float64 (x : num) : num :=
  match x with
  | Finite r =>
      if Rle_dec ovf (Rabs r) then (if Rlt_dec 0 r then PosInf else NegInf)
      else if Rle_dec (Rabs r) unf then Finite 0
      else Finite r
  | _ => x
  end.

(** A real result that float64 keeps: zero, or of magnitude strictly
    between [unf] and [ovf]. *)
Definition kept (r : R) : Prop := r = 0 \/ (unf < Rabs r /\ Rabs r < ovf).

(** A non-negative real result after underflow. *)
Definition flush (r : R) : R := if Rle_dec r unf then 0 else r.

Section Rounded.

Variable rnd : num -> num.

Definition fadd_rnd (x y : num) : num := rnd (fadd x y).
Definition fsub_rnd (x y : num) : num := rnd (fsub x y).
Definition fmul_rnd (x y : num) : num := rnd (fmul x y).
Definition fdiv_rnd (x y : num) : num := rnd (fdiv x y).
Definition fexp_rnd (x : num) : num := rnd (fexp x).

Fixpoint fpow_rnd (x : num) (n : nat) : num :=
  match n with
  | O => Finite 1
  | S n' => fmul_rnd x (fpow_rnd x n')
  end.

Definition row_sum_rnd (v : vector) : num := fold_right fadd_rnd (Finite 0) v.

Definition tf_reduce_sum_rnd (t : tensor) : vector := map row_sum_rnd t.

Definition tf_exp_rnd (t : tensor) : tensor := map (map fexp_rnd) t.

Definition tpow_rnd (t : tensor) (n : nat) : tensor :=
  map (map (fun x => fpow_rnd x n)) t.

Definition conditional_mean_rnd (self : obj) (F : tensor) : result tensor :=
  let* invlink := self_invlink self in
  let concentration := invlink F in
  let concentration_sum := newaxis (tf_reduce_sum_rnd concentration) in
  bcast2 fdiv_rnd concentration concentration_sum.

Definition conditional_variance_rnd (self : obj) (F : tensor) : result tensor :=
  let* invlink := self_invlink self in
  let concentration := invlink F in
  let c_sum := newaxis (tf_reduce_sum_rnd concentration) in
  let* d := bcast2 fsub_rnd c_sum concentration in
  let* numer := bcast2 fmul_rnd concentration d in
  let* denom := bcast2 fmul_rnd (tpow_rnd c_sum 2)
                       (scalar_op fadd_rnd c_sum (Finite 1)) in
  bcast2 fdiv_rnd numer denom.

(** The two moments of one row. *)
Definition mean_row_rnd (alpha : vector) : vector :=
  map (fun a => fdiv_rnd a (row_sum_rnd alpha)) alpha.

Definition variance_entry_rnd (S a : num) : num :=
  fdiv_rnd (fmul_rnd a (fsub_rnd S a))
           (fmul_rnd (fpow_rnd S 2) (fadd_rnd S (Finite 1))).

Definition variance_row_rnd (alpha : vector) : vector :=
  map (variance_entry_rnd (row_sum_rnd alpha)) alpha.

Definition tf_reduce_sum_keepdims_rnd (t : tensor) : tensor :=
  map (fun row => [row_sum_rnd row]) t.

Definition _sample_dir_rnd {rng : Type}
    (tf_random_gamma : rng -> nat -> vector -> option Z -> tensor * rng)
    (concentration : vector) (n : nat) (seed : option Z) (g : rng)
    : result tensor * rng :=
  let (gamma_sample, g') := tf_random_gamma g n concentration seed in
  (bcast2 fdiv_rnd gamma_sample (tf_reduce_sum_keepdims_rnd gamma_sample), g').

End Rounded.

(** The default link and an instance holding it, with the range of
    float64. *)
Definition tf_exp64 : tensor -> tensor := tf_exp_rnd to_float64.
Definition dirichlet64 : obj := {["invlink" := VFun tf_exp64]}.

(** * Properties *)

(** ** Arithmetic on finite values *)

Lemma fdiv_finite (a b : R) : b <> 0 -> fdiv (Finite a) (Finite b) = Finite (a / b).
Proof. intros Hb. simpl. destruct (Req_EM_T b 0); [contradiction | reflexivity]. Qed.

Lemma flog_finite (a : R) : 0 < a -> flog (Finite a) = Finite (ln a).
Proof.
  intros Ha. simpl. destruct (Req_EM_T a 0); [lra |].
  destruct (Rlt_dec 0 a); [reflexivity | contradiction].
Qed.


Lemma is_zero_true (x : num) : is_zero x = true <-> x = Finite 0.
Proof.
  destruct x as [a | | |]; simpl; try (split; discriminate).
  destruct (Req_EM_T a 0) as [-> | Hne]; split; try reflexivity; try discriminate.
  intros [= ->]. lra.
Qed.

Lemma xlogy_zero (y : num) : xlogy (Finite 0) y = Finite 0.
Proof.
  unfold xlogy. replace (is_zero (Finite 0)) with true; [reflexivity |].
  symmetry. apply is_zero_true. reflexivity.
Qed.

Lemma xlogy_finite (a y : R) : 0 < y -> xlogy (Finite a) (Finite y) = Finite (a * ln y).
Proof.
  intros Hy. unfold xlogy. rewrite flog_finite by assumption. simpl.
  destruct (Req_EM_T a 0) as [-> | _]; [f_equal; lra | reflexivity].
Qed.

Lemma row_sum_of_reals (v : list R) : row_sum (of_reals v) = Finite (Rsum v).
Proof.
  unfold row_sum, of_reals.
  induction v as [| a v IH]; simpl; [reflexivity |].
  rewrite IH. reflexivity.
Qed.

(** ** Broadcasting *)

Lemma bcast_same (op : num -> num -> num) (xs ys : vector) :
  length xs = length ys -> bcast op xs ys = Ok (zip_with op xs ys).
Proof.
  intros Hlen. unfold bcast.
  rewrite (proj2 (Nat.eqb_eq _ _) Hlen). reflexivity.
Qed.

Lemma bcast_stretch_r (op : num -> num -> num) (xs : vector) (y : num) :
  bcast op xs [y] = Ok (map (fun x => op x y) xs).
Proof.
  unfold bcast. destruct (Nat.eqb (length xs) (length [y])) eqn:E.
  - apply Nat.eqb_eq in E. destruct xs as [| x [| x' xs]]; try discriminate.
    reflexivity.
  - destruct xs as [| x [| x' xs]]; reflexivity.
Qed.

Lemma bcast_stretch_l (op : num -> num -> num) (x : num) (ys : vector) :
  bcast op [x] ys = Ok (map (op x) ys).
Proof.
  unfold bcast. destruct (Nat.eqb (length [x]) (length ys)) eqn:E.
  - apply Nat.eqb_eq in E. destruct ys as [| y [| y' ys]]; try discriminate.
    reflexivity.
  - destruct ys as [| y [| y' ys]]; reflexivity.
Qed.

Lemma bcast_mismatch (op : num -> num -> num) (xs ys : vector) :
  length xs <> length ys -> (1 < length xs)%nat -> (1 < length ys)%nat ->
  bcast op xs ys = Raise InvalidArgumentError.
Proof.
  intros Hne Hx Hy. unfold bcast.
  destruct (Nat.eqb (length xs) (length ys)) eqn:E.
  - apply Nat.eqb_eq in E. contradiction.
  - destruct xs as [| x [| x' xs]]; simpl in Hx; try lia.
    destruct ys as [| y [| y' ys]]; simpl in Hy; try lia.
    reflexivity.
Qed.

(** Row by row: when each pair of rows broadcasts, so do the tensors. *)
Lemma zip_rows_map {C : Type} (op : num -> num -> num)
    (f g h : C -> vector) (l : list C) :
  (forall c, In c l -> bcast op (f c) (g c) = Ok (h c)) ->
  zip_rows op (map f l) (map g l) = Ok (map h l).
Proof.
  induction l as [| c l IH]; intros Hrow; simpl; [reflexivity |].
  rewrite (Hrow c) by (left; reflexivity). simpl.
  rewrite IH by (intros c' Hc'; apply Hrow; right; exact Hc').
  reflexivity.
Qed.

Lemma bcast2_map {C : Type} (op : num -> num -> num)
    (f g h : C -> vector) (l : list C) :
  (forall c, In c l -> bcast op (f c) (g c) = Ok (h c)) ->
  bcast2 op (map f l) (map g l) = Ok (map h l).
Proof.
  intros Hrow. unfold bcast2.
  rewrite !length_map, Nat.eqb_refl. apply zip_rows_map, Hrow.
Qed.

Lemma bcast2_map_l (op : num -> num -> num) (f h : vector -> vector) (l : tensor) :
  (forall c, In c l -> bcast op (f c) c = Ok (h c)) ->
  bcast2 op (map f l) l = Ok (map h l).
Proof.
  intros Hrow. pose proof (bcast2_map op f (fun c => c) h l Hrow) as H.
  rewrite map_id in H. exact H.
Qed.

Lemma bcast2_map_r (op : num -> num -> num) (g h : vector -> vector) (l : tensor) :
  (forall c, In c l -> bcast op c (g c) = Ok (h c)) ->
  bcast2 op l (map g l) = Ok (map h l).
Proof.
  intros Hrow. pose proof (bcast2_map op (fun c => c) g h l Hrow) as H.
  rewrite map_id in H. exact H.
Qed.

Lemma zip_rows_same_shape (op : num -> num -> num) (A B : tensor) :
  same_shape A B -> zip_rows op A B = Ok (zip_with (zip_with op) A B).
Proof.
  induction 1 as [| a b A B Hlen _ IH]; simpl; [reflexivity |].
  rewrite (bcast_same op a b Hlen). simpl. rewrite IH. reflexivity.
Qed.

Lemma bcast2_same_shape (op : num -> num -> num) (A B : tensor) :
  same_shape A B -> bcast2 op A B = Ok (zip_with (zip_with op) A B).
Proof.
  intros Hs. unfold bcast2.
  rewrite (proj2 (Nat.eqb_eq _ _) (Forall2_length _ _ _ Hs)).
  apply zip_rows_same_shape, Hs.
Qed.

Lemma zip_with_map_r {A B C : Type} (f : A -> B -> C) (g : A -> B) (l : list A) :
  zip_with f l (map g l) = map (fun x => f x (g x)) l.
Proof. induction l as [| x l IH]; simpl; [reflexivity | rewrite IH; reflexivity]. Qed.

(** ** The methods, row by row *)

Lemma signed_inf_pos (r : R) : 0 < r -> signed_inf r = PosInf.
Proof.
  intros Hr. unfold signed_inf. destruct (Req_EM_T r 0); [lra |].
  destruct (Rlt_dec 0 r); [reflexivity | contradiction].
Qed.

Lemma signed_inf_neg (r : R) : r < 0 -> signed_inf r = NegInf.
Proof.
  intros Hr. unfold signed_inf. destruct (Req_EM_T r 0); [lra |].
  destruct (Rlt_dec 0 r); [lra | reflexivity].
Qed.

Lemma signed_inf_zero : signed_inf 0 = NaN.
Proof. unfold signed_inf. destruct (Req_EM_T 0 0); [reflexivity | lra]. Qed.

Lemma fmul_1_r (x : num) : fmul x (Finite 1) = x.
Proof.
  destruct x as [a | | |]; simpl; try reflexivity.
  - f_equal. lra.
  - apply signed_inf_pos. lra.
  - apply signed_inf_neg. lra.
Qed.

Lemma fpow_2 (x : num) : fpow x 2 = fmul x x.
Proof. simpl. rewrite fmul_1_r. reflexivity. Qed.

Section Methods.

Variables (self : obj) (link : tensor -> tensor).
Hypothesis Hlink : self !! "invlink" = Some (VFun link).

Lemma self_invlink_ok : self_invlink self = Ok link.
Proof. unfold self_invlink. rewrite Hlink. reflexivity. Qed.

Lemma conditional_mean_rows (F : tensor) :
  conditional_mean self F = Ok (map spec_mean_row (link F)).
Proof.
  unfold conditional_mean. rewrite self_invlink_ok. simpl.
  unfold tdiv, newaxis, tf_reduce_sum. rewrite map_map.
  apply bcast2_map_r. intros row _. apply bcast_stretch_r.
Qed.

Lemma conditional_variance_rows (F : tensor) :
  conditional_variance self F = Ok (map spec_variance_row (link F)).
Proof.
  unfold conditional_variance. rewrite self_invlink_ok. cbn [bind].
  unfold tsub, tmul, tdiv, tpow, scalar_op, newaxis, tf_reduce_sum.
  rewrite !map_map.
  set (C := link F).
  rewrite (bcast2_map_l fsub (fun row => [row_sum row])
             (fun row => map (fsub (row_sum row)) row) C)
    by (intros row _; apply bcast_stretch_l).
  cbn [bind].
  rewrite (bcast2_map_r fmul
             (fun row => map (fsub (row_sum row)) row)
             (fun row => map (fun a => fmul a (fsub (row_sum row) a)) row) C).
  2:{ intros row _. rewrite bcast_same by (rewrite length_map; reflexivity).
      rewrite zip_with_map_r. reflexivity. }
  cbn [bind].
  cbn [map].
  rewrite (bcast2_map fmul (fun row => [fpow (row_sum row) 2])
             (fun row => [fadd (row_sum row) (Finite 1)])
             (fun row => [fmul (fmul (row_sum row) (row_sum row))
                               (fadd (row_sum row) (Finite 1))]) C).
  2:{ intros row _. rewrite bcast_stretch_r. cbn [map].
      rewrite fpow_2. reflexivity. }
  cbn [bind].
  rewrite (bcast2_map fdiv _ _ spec_variance_row C).
  - reflexivity.
  - intros row _. rewrite bcast_stretch_r. unfold spec_variance_row.
    rewrite map_map. reflexivity.
Qed.

End Methods.

(** Reduces an equation between results, matrices or lists to equations
    between their entries. *)
Ltac entrywise :=
  repeat match goal with
         | |- Ok _ = Ok _ => f_equal
         | |- of_matrix _ = of_matrix _ => f_equal
         | |- of_reals _ = of_reals _ => f_equal
         | |- Finite _ = Finite _ => f_equal
         | |- (_ :: _) = (_ :: _) => f_equal
         end.

(** ** Sums of real rows *)

Lemma Rsum_scale (s : R) (a : list R) :
  Rsum (map (fun x => x / s) a) = Rsum a / s.
Proof.
  unfold Rsum. induction a as [| x a IH]; simpl.
  - unfold Rdiv. lra.
  - rewrite IH. unfold Rdiv. lra.
Qed.

Lemma Rsum_nonneg (a : list R) : Forall (fun v => 0 < v) a -> 0 <= Rsum a.
Proof.
  unfold Rsum. induction 1 as [| x a Hx _ IH]; simpl; lra.
Qed.

Lemma Rsum_pos (a : list R) :
  a <> [] -> Forall (fun v => 0 < v) a -> 0 < Rsum a.
Proof.
  intros Hne Hpos. destruct Hpos as [| x a Hx Ha]; [contradiction |].
  apply Rsum_nonneg in Ha. unfold Rsum in *. simpl. lra.
Qed.

Lemma Rsum_ge_entry (a : list R) (x : R) :
  Forall (fun v => 0 < v) a -> In x a -> x <= Rsum a.
Proof.
  induction 1 as [| y a Hy Ha IH]; intros Hin; [destruct Hin |].
  pose proof (Rsum_nonneg a Ha) as Hs. unfold Rsum in *. simpl.
  destruct Hin as [-> | Hin]; [lra |]. specialize (IH Hin). lra.
Qed.

Lemma Rsum_gt_entry (a : list R) (x : R) :
  Forall (fun v => 0 < v) a -> (2 <= length a)%nat -> In x a -> x < Rsum a.
Proof.
  intros Hpos Hlen Hin.
  destruct Hpos as [| y a Hy Ha]; [destruct Hin |].
  destruct a as [| z a]; [simpl in Hlen; lia |].
  assert (Hrest : 0 < Rsum (z :: a)) by (apply Rsum_pos; [discriminate | exact Ha]).
  unfold Rsum in *. simpl in *.
  destruct Hin as [-> | Hin]; [lra |].
  pose proof (Rsum_ge_entry (z :: a) x Ha Hin) as Hle.
  unfold Rsum in Hle. simpl in Hle. lra.
Qed.

(** ** The moments of a row of reals *)

Lemma map_of_reals (f : num -> num) (g : R -> R) (a : list R) :
  (forall x, In x a -> f (Finite x) = Finite (g x)) ->
  map f (of_reals a) = of_reals (map g a).
Proof.
  unfold of_reals. induction a as [| x a IH]; intros Hfg; simpl; [reflexivity |].
  rewrite Hfg by (left; reflexivity).
  rewrite IH by (intros y Hy; apply Hfg; right; exact Hy). reflexivity.
Qed.

Lemma spec_mean_row_reals (a : list R) :
  Rsum a <> 0 ->
  spec_mean_row (of_reals a) = of_reals (map (fun x => x / Rsum a) a).
Proof.
  intros Hs. unfold spec_mean_row. rewrite row_sum_of_reals.
  apply map_of_reals. intros x _. apply fdiv_finite, Hs.
Qed.

Lemma spec_variance_row_reals (a : list R) :
  Forall (fun v => 0 < v) a ->
  spec_variance_row (of_reals a) =
  of_reals (map (fun x => x * (Rsum a - x) / (Rsum a * Rsum a * (Rsum a + 1))) a).
Proof.
  intros Hpos. unfold spec_variance_row. rewrite row_sum_of_reals.
  apply map_of_reals. intros x Hx. simpl.
  assert (0 < Rsum a).
  { apply Rsum_pos; [intros -> ; destruct Hx | exact Hpos]. }
  destruct (Req_EM_T (Rsum a * Rsum a * (Rsum a + 1)) 0) as [E | _]; [nra |].
  f_equal.
Qed.

Lemma tf_exp_of_matrix (M : list (list R)) :
  tf_exp (of_matrix M) = of_matrix (map (map exp) M).
Proof.
  unfold tf_exp, of_matrix, of_reals. rewrite !map_map.
  apply map_ext. intros row. rewrite !map_map. reflexivity.
Qed.

Lemma exp_rows_positive (M : list (list R)) :
  Forall (Forall (fun v => 0 < v)) (map (map exp) M).
Proof.
  apply Forall_map, Forall_forall. intros row _.
  apply Forall_map, Forall_forall. intros x _. apply exp_pos.
Qed.

(** ** Construction *)

Section Construction.

Variable super_init : obj -> kwargs -> result obj.

Lemma init_unfold (invlink : option (tensor -> tensor)) (kw : kwargs) (self : obj) :
  Dirichlet_new super_init invlink kw = Ok self ->
  exists base : obj,
    super_init ∅ kw = Ok base /\
    self = <["num_monte_carlo_points" := VInt 100]>
             (<["invlink" := VFun (default tf_exp invlink)]> base).
Proof.
  unfold Dirichlet_new, __init__. intros H.
  destruct (super_init ∅ kw) as [base | e]; simpl in H; [| discriminate].
  exists base. split; [reflexivity |]. congruence.
Qed.

Lemma init_invlink (invlink : option (tensor -> tensor)) (kw : kwargs) (self : obj) :
  Dirichlet_new super_init invlink kw = Ok self ->
  self !! "invlink" = Some (VFun (default tf_exp invlink)).
Proof.
  intros H. apply init_unfold in H as (base & _ & ->).
  rewrite lookup_insert_ne by discriminate. apply lookup_insert_eq.
Qed.

Lemma init_sample_count (invlink : option (tensor -> tensor)) (kw : kwargs) (self : obj) :
  Dirichlet_new super_init invlink kw = Ok self ->
  self !! "num_monte_carlo_points" = Some (VInt 100).
Proof.
  intros H. apply init_unfold in H as (base & _ & ->). apply lookup_insert_eq.
Qed.

Lemma init_succeeds (invlink : option (tensor -> tensor)) (kw : kwargs) :
  succeeds (Dirichlet_new super_init invlink kw) <-> succeeds (super_init ∅ kw).
Proof.
  unfold succeeds, Dirichlet_new, __init__.
  destruct (super_init ∅ kw) as [base | e]; simpl; split; intros [x Hx];
    try discriminate; eauto.
Qed.

End Construction.

Lemma gpflow_default_instance :
  exists lik, Dirichlet_new gpflow_init None ∅ = Ok lik.
Proof. eexists. reflexivity. Qed.

(** The methods read [self.invlink] and nothing else of the instance. *)
Lemma self_invlink_other_attribute (self : obj) (name : string) (v : value) :
  name <> "invlink" -> self_invlink (<[name := v]> self) = self_invlink self.
Proof.
  intros Hne. unfold self_invlink. rewrite lookup_insert_ne by exact Hne.
  reflexivity.
Qed.

(** C6.  The constructor succeeds exactly when the framework's constructor
    does, whatever the link and the keyword arguments; the instance it
    returns holds the given link unchanged (the exponential when none is
    given) and the sample count 100, also when a keyword argument or the
    framework had set that attribute; and the three operations return the
    same result whatever value the sample count attribute holds.  (The
    operations return a value and no instance: they cannot modify it.) *)
Theorem init_stores_link_and_sample_count (Gamma : R -> R)
    (super_init : obj -> kwargs -> result obj)
    (invlink : option (tensor -> tensor)) (kw : kwargs) :
  (succeeds (Dirichlet_new super_init invlink kw) <-> succeeds (super_init ∅ kw)) /\
  forall self : obj,
    Dirichlet_new super_init invlink kw = Ok self ->
    self !! "invlink" = Some (VFun (default tf_exp invlink)) /\
    self !! "num_monte_carlo_points" = Some (VInt 100) /\
    forall (v : value) (F Y : tensor),
      log_prob Gamma (<["num_monte_carlo_points" := v]> self) F Y
        = log_prob Gamma self F Y /\
      conditional_mean (<["num_monte_carlo_points" := v]> self) F
        = conditional_mean self F /\
      conditional_variance (<["num_monte_carlo_points" := v]> self) F
        = conditional_variance self F.
Proof.
  split; [apply init_succeeds |].
  intros self Hnew. split; [| split].
  - eapply init_invlink, Hnew.
  - eapply init_sample_count, Hnew.
  - intros v F Y.
    unfold log_prob, conditional_mean, conditional_variance.
    rewrite self_invlink_other_attribute by discriminate.
    repeat split; reflexivity.
Qed.

Lemma init_stores_link_and_sample_count_witness :
  exists self : obj,
    Dirichlet_new gpflow_init None {["num_monte_carlo_points" := VInt 5]} = Ok self /\
    self !! "invlink" = Some (VFun tf_exp) /\
    self !! "num_monte_carlo_points" = Some (VInt 100).
Proof.
  eexists. split; [reflexivity |].
  destruct (init_stores_link_and_sample_count Gamma_model gpflow_init None
              {["num_monte_carlo_points" := VInt 5]}) as [_ H].
  destruct (H _ eq_refl) as (Hl & Hn & _).
  split; [exact Hl | exact Hn].
Defined.

(** ** The conditional mean *)

Lemma mean_row_bounds (a : list R) :
  Forall (fun v => 0 < v) a ->
  (a <> [] -> Rsum (map (fun x => x / Rsum a) a) = 1) /\
  Forall (fun x => 0 < x <= 1) (map (fun x => x / Rsum a) a) /\
  ((2 <= length a)%nat -> Forall (fun x => x < 1) (map (fun x => x / Rsum a) a)).
Proof.
  intros Hpos. split; [| split].
  - intros Hne. pose proof (Rsum_pos a Hne Hpos).
    rewrite Rsum_scale. field. lra.
  - apply Forall_map, Forall_forall. intros x Hx.
    apply list_elem_of_In in Hx.
    assert (Hne : a <> []) by (intros ->; destruct Hx).
    pose proof (Rsum_pos a Hne Hpos) as Hs.
    pose proof (Rsum_ge_entry a x Hpos Hx) as Hle.
    assert (0 < x) by (rewrite Forall_forall in Hpos; apply Hpos, list_elem_of_In, Hx).
    split.
    + apply Rdiv_lt_0_compat; assumption.
    + apply (Rmult_le_reg_r (Rsum a)); [exact Hs |].
      unfold Rdiv. rewrite Rmult_assoc, Rinv_l by lra. lra.
  - intros Hlen. apply Forall_map, Forall_forall. intros x Hx.
    apply list_elem_of_In in Hx.
    pose proof (Rsum_gt_entry a x Hpos Hlen Hx) as Hlt.
    assert (0 < x) by (rewrite Forall_forall in Hpos; apply Hpos, list_elem_of_In, Hx).
    apply (Rmult_lt_reg_r (Rsum a)); [lra |].
    unfold Rdiv. rewrite Rmult_assoc, Rinv_l by lra. lra.
Qed.

Lemma spec_mean_row_positive (a : list R) :
  Forall (fun v => 0 < v) a ->
  spec_mean_row (of_reals a) = of_reals (map (fun x => x / Rsum a) a).
Proof.
  intros Hpos. destruct a as [| x a]; [reflexivity |].
  apply spec_mean_row_reals.
  pose proof (Rsum_pos (x :: a) ltac:(discriminate) Hpos). lra.
Qed.

Lemma map_rows_of_matrix (f : vector -> vector) (g : list R -> list R)
    (alpha : list (list R)) :
  Forall (fun row => f (of_reals row) = of_reals (g row)) alpha ->
  map f (of_matrix alpha) = of_matrix (map g alpha).
Proof.
  unfold of_matrix. induction 1 as [| row alpha Hrow _ IH]; simpl; [reflexivity |].
  rewrite Hrow, IH. reflexivity.
Qed.

Lemma conditional_mean_exp (self : obj) (M : list (list R)) :
  self !! "invlink" = Some (VFun tf_exp) ->
  conditional_mean self (of_matrix M)
  = Ok (of_matrix (map (fun row => map (fun a => a / Rsum row) row)
                       (map (map exp) M))).
Proof.
  intros Hlink.
  rewrite (conditional_mean_rows self tf_exp Hlink), tf_exp_of_matrix. f_equal.
  apply map_rows_of_matrix.
  eapply Forall_impl; [apply exp_rows_positive |]. intros row Hrow.
  apply spec_mean_row_positive, Hrow.
Qed.

(** ** The conditional variance *)

Lemma variance_row_nonneg (a : list R) :
  Forall (fun v => 0 < v) a ->
  Forall (fun x => 0 <= x)
    (map (fun x => x * (Rsum a - x) / (Rsum a * Rsum a * (Rsum a + 1))) a).
Proof.
  intros Hpos. apply Forall_map, Forall_forall. intros x Hx.
  apply list_elem_of_In in Hx.
  assert (Hne : a <> []) by (intros ->; destruct Hx).
  pose proof (Rsum_pos a Hne Hpos) as Hs.
  pose proof (Rsum_ge_entry a x Hpos Hx) as Hle.
  assert (0 < x) by (rewrite Forall_forall in Hpos; apply Hpos, list_elem_of_In, Hx).
  apply Rmult_le_pos; [nra |].
  left. apply Rinv_0_lt_compat. nra.
Qed.

Lemma conditional_variance_positive (self : obj) (link : tensor -> tensor)
    (F : tensor) (alpha : list (list R)) :
  self !! "invlink" = Some (VFun link) ->
  link F = of_matrix alpha ->
  Forall (Forall (fun a => 0 < a)) alpha ->
  conditional_variance self F
  = Ok (of_matrix
          (map (fun row =>
                  map (fun x => x * (Rsum row - x)
                                / (Rsum row * Rsum row * (Rsum row + 1))) row)
               alpha)).
Proof.
  intros Hlink Halpha Hpos.
  rewrite (conditional_variance_rows self link Hlink), Halpha. f_equal.
  apply map_rows_of_matrix.
  eapply Forall_impl; [exact Hpos |]. intros row Hrow.
  apply spec_variance_row_reals, Hrow.
Qed.

(** ** Variance from mean *)

Lemma fdiv_by_zero (a b : R) : b = 0 -> fdiv (Finite a) (Finite b) = signed_inf a.
Proof. intros Hb. simpl. destruct (Req_EM_T b 0); [reflexivity | contradiction]. Qed.

(** One coordinate, for any real concentration and row sum, the sums 0 and
    -1 included: both sides divide by zero there and agree on the result. *)
Lemma variance_from_mean_coordinate (x S : R) :
  fdiv (fmul (Finite x) (fsub (Finite S) (Finite x)))
       (fmul (fmul (Finite S) (Finite S)) (fadd (Finite S) (Finite 1)))
  = fdiv (fmul (fdiv (Finite x) (Finite S))
               (fsub (Finite 1) (fdiv (Finite x) (Finite S))))
         (fadd (Finite S) (Finite 1)).
Proof.
  cbn [fsub fopp fadd fmul].
  destruct (Req_EM_T S 0) as [HS | HS].
  - rewrite (fdiv_by_zero x S HS), (fdiv_by_zero _ (S * S * (S + 1))) by nra.
    subst S.
    destruct (Rtotal_order x 0) as [Hx | [Hx | Hx]].
    + rewrite (signed_inf_neg x Hx), signed_inf_neg by nra. simpl.
      destruct (Rlt_dec (0 + 1) 0); [lra | reflexivity].
    + subst x. replace (0 * (0 + - 0)) with 0 by lra.
      rewrite signed_inf_zero. reflexivity.
    + rewrite (signed_inf_pos x Hx), signed_inf_neg by nra. simpl.
      destruct (Rlt_dec (0 + 1) 0); [lra | reflexivity].
  - rewrite (fdiv_finite x S HS). cbn [fsub fopp fadd fmul].
    destruct (Req_EM_T (S + 1) 0) as [H1 | H1].
    + rewrite !fdiv_by_zero by nra. f_equal.
      assert (HS1 : S = - (1)) by lra. subst S. field.
    + assert (Hden : S * S * (S + 1) <> 0)
        by (repeat apply Rmult_integral_contrapositive_currified; assumption).
      rewrite (fdiv_finite _ _ Hden), (fdiv_finite _ _ H1). f_equal. field.
      split; assumption.
Qed.

Lemma variance_from_mean_row (a : list R) :
  spec_variance_row (of_reals a)
  = map (fun mk => fdiv (fmul mk (fsub (Finite 1) mk))
                        (fadd (row_sum (of_reals a)) (Finite 1)))
        (spec_mean_row (of_reals a)).
Proof.
  unfold spec_variance_row, spec_mean_row. rewrite map_map, row_sum_of_reals.
  unfold of_reals. rewrite !map_map. apply map_ext. intros x.
  apply variance_from_mean_coordinate.
Qed.

Lemma exp_zero_pair : tf_exp (of_matrix [[0; 0]]) = of_matrix [[1; 1]].
Proof. rewrite tf_exp_of_matrix. simpl. rewrite exp_0. reflexivity. Qed.

(** ** The log-density *)

Lemma zip_with_map_l {A A' B C : Type} (f : A' -> B -> C) (g : A -> A')
    (l : list A) (k : list B) :
  zip_with f (map g l) k = zip_with (fun x y => f (g x) y) l k.
Proof.
  revert k. induction l as [| x l IH]; intros [| y k]; simpl; try reflexivity.
  rewrite IH. reflexivity.
Qed.

Lemma same_shape_scalar_op (op : num -> num -> num) (c : num) (A B : tensor) :
  same_shape A B -> same_shape (scalar_op op A c) B.
Proof.
  unfold same_shape, scalar_op. induction 1 as [| a b A B Hlen _ IH]; simpl.
  - constructor.
  - constructor; [rewrite length_map; exact Hlen | exact IH].
Qed.

Lemma same_shape_trans (A B C : tensor) :
  same_shape A B -> same_shape B C -> same_shape A C.
Proof.
  unfold same_shape. intros HAB. revert C.
  induction HAB as [| a b A B Hlen _ IH]; intros C HBC; inversion HBC; subst.
  - constructor.
  - constructor; [congruence | apply IH; assumption].
Qed.

Lemma same_shape_tf_exp (A : tensor) : same_shape (tf_exp A) A.
Proof.
  unfold same_shape, tf_exp. induction A as [| a A IH]; simpl; constructor.
  - apply length_map.
  - exact IH.
Qed.

Section LogProb.

Variable Gamma : R -> R.

Lemma _log_prob_rows (concentration y : tensor) :
  same_shape concentration y ->
  _log_prob Gamma concentration y
  = Ok (zip_with (spec_log_prob_row Gamma) concentration y).
Proof.
  intros Hs. unfold _log_prob, tf_math_xlogy.
  rewrite bcast2_same_shape by (apply same_shape_scalar_op, Hs).
  cbn [bind]. unfold tf_reduce_sum, tf_math_lbeta, scalar_op.
  rewrite bcast_same.
  - f_equal. induction Hs as [| a b A B Hlen _ IH]; simpl; [reflexivity |].
    rewrite IH. f_equal.
    unfold spec_log_prob_row, lbeta_row. rewrite zip_with_map_l. reflexivity.
  - rewrite !length_map, length_zip_with, length_map.
    apply Forall2_length in Hs. lia.
Qed.

Lemma log_prob_rows (self : obj) (link : tensor -> tensor) (F Y : tensor) :
  self !! "invlink" = Some (VFun link) ->
  same_shape (link F) Y ->
  log_prob Gamma self F Y = Ok (zip_with (spec_log_prob_row Gamma) (link F) Y).
Proof.
  intros Hlink Hs. unfold log_prob. rewrite (self_invlink_ok self link Hlink).
  cbn [bind]. apply _log_prob_rows, Hs.
Qed.

End LogProb.

Lemma is_pole_positive (a : R) : 0 < a -> is_pole a = false.
Proof. intros Ha. unfold is_pole. destruct (Rle_dec a 0); [lra | reflexivity]. Qed.

(** [is_pole] holds exactly at zero and the negative integers. *)
Lemma is_pole_spec (a : R) :
  is_pole a = true <-> a <= 0 /\ exists z : Z, a = IZR z.
Proof.
  unfold is_pole. split.
  - destruct (Rle_dec a 0) as [Hle | _]; [| discriminate].
    destruct (Req_EM_T (IZR (up a)) (a + 1)) as [Hup | _]; [| discriminate].
    intros _. split; [exact Hle |]. exists (up a - 1)%Z. rewrite minus_IZR. lra.
  - intros [Hle [z ->]]. destruct (Rle_dec (IZR z) 0); [| contradiction].
    destruct (Req_EM_T (IZR (up (IZR z))) (IZR z + 1)) as [_ | Hne]; [reflexivity |].
    exfalso. apply Hne. rewrite <- (tech_up (IZR z) (z + 1)); rewrite plus_IZR; lra.
Qed.

Lemma is_pole_zero : is_pole 0 = true.
Proof.
  unfold is_pole. destruct (Rle_dec 0 0); [| lra].
  destruct (Req_EM_T (IZR (up 0)) (0 + 1)) as [_ | Hne]; [reflexivity |].
  exfalso. apply Hne.
  rewrite <- (tech_up 0 1) by (simpl; lra). lra.
Qed.

Lemma xlogy_regular (ak yk : R) :
  regular ak yk ->
  xlogy (fsub (Finite ak) (Finite 1)) (Finite yk) = Finite ((ak - 1) * ln yk).
Proof.
  intros [_ [Hy | ->]].
  - apply (xlogy_finite (ak - 1) yk Hy).
  - change (fsub (Finite 1) (Finite 1)) with (Finite (1 - 1)).
    replace (1 - 1) with 0 by lra. rewrite xlogy_zero. f_equal. lra.
Qed.

Lemma xlogy_row_regular (a y : list R) :
  Forall2 regular a y ->
  row_sum (zip_with (fun ak yk => xlogy (fsub ak (Finite 1)) yk)
             (of_reals a) (of_reals y))
  = Finite (Rsum (zip_with (fun ak yk => (ak - 1) * ln yk) a y)).
Proof.
  unfold row_sum, Rsum, of_reals.
  induction 1 as [| ak yk a y Hk _ IH]; cbn [zip_with map fold_right];
    [reflexivity |].
  rewrite IH, (xlogy_regular ak yk Hk). reflexivity.
Qed.

Section LogGamma.

Variable Gamma : R -> R.
Hypothesis Gamma_pos : forall x : R, 0 < x -> 0 < Gamma x.

Lemma lgamma_positive (a : R) :
  0 < a -> lgamma Gamma (Finite a) = Finite (ln (Gamma a)).
Proof.
  intros Ha. unfold lgamma. rewrite (is_pole_positive a Ha).
  pose proof (Gamma_pos a Ha) as HG.
  rewrite Rabs_pos_eq by lra. apply flog_finite, HG.
Qed.

Lemma lgamma_row_positive (a : list R) :
  Forall (fun v => 0 < v) a ->
  row_sum (map (lgamma Gamma) (of_reals a))
  = Finite (Rsum (map (fun x => ln (Gamma x)) a)).
Proof.
  unfold row_sum, Rsum, of_reals.
  induction 1 as [| x a Hx _ IH]; cbn [map fold_right]; [reflexivity |].
  rewrite IH, (lgamma_positive x Hx). reflexivity.
Qed.

Lemma spec_log_prob_row_regular (a y : list R) :
  a <> [] ->
  Forall2 regular a y ->
  spec_log_prob_row Gamma (of_reals a) (of_reals y)
  = Finite (dirichlet_log_density Gamma a y).
Proof.
  intros Hne Hreg.
  assert (Hpos : Forall (fun v => 0 < v) a).
  { clear Hne. induction Hreg as [| ak yk a y [Hk _] _ IH]; constructor; assumption. }
  unfold spec_log_prob_row, dirichlet_log_density.
  rewrite (xlogy_row_regular a y Hreg), (lgamma_row_positive a Hpos),
    row_sum_of_reals, lgamma_positive by (apply Rsum_pos; assumption).
  reflexivity.
Qed.

End LogGamma.

(** ** The model of Gamma *)

Lemma falling_shift (x : R) (n : nat) : falling (x + 1) (S n) = x * falling x n.
Proof.
  induction n as [| n IH].
  - simpl. lra.
  - change (falling (x + 1) (S (S n)))
      with ((x + 1 - INR (S (S n))) * falling (x + 1) (S n)).
    rewrite IH.
    change (falling x (S n)) with ((x - INR (S n)) * falling x n).
    rewrite (S_INR (S n)). ring.
Qed.

Lemma falling_pos (x : R) (n : nat) : INR n < x -> 0 < falling x n.
Proof.
  induction n as [| n IH]; intros Hn.
  - simpl. lra.
  - change (falling x (S n)) with ((x - INR (S n)) * falling x n).
    rewrite S_INR in Hn. apply Rmult_lt_0_compat.
    + rewrite S_INR. lra.
    + apply IH. lra.
Qed.

Lemma up_ge_2 (x : R) : 1 <= x -> (2 <= up x)%Z.
Proof.
  intros Hx. destruct (archimed x) as [Hup _].
  assert (H1 : (1 < up x)%Z) by (apply lt_IZR; lra). lia.
Qed.

Lemma up_succ (x : R) : up (x + 1) = (up x + 1)%Z.
Proof.
  symmetry. destruct (archimed x) as [Hup Hlow].
  apply tech_up; rewrite plus_IZR; lra.
Qed.

Lemma Gamma_model_1 : Gamma_model 1 = 1.
Proof.
  unfold Gamma_model. destruct (Rlt_dec 1 1); [lra |].
  rewrite <- (tech_up 1 2) by (simpl; lra). reflexivity.
Qed.

Lemma Gamma_model_rec (x : R) : 0 < x -> Gamma_model (x + 1) = x * Gamma_model x.
Proof.
  intros Hx. unfold Gamma_model.
  destruct (Rlt_dec (x + 1) 1); [lra |].
  destruct (Rlt_dec x 1) as [Hlt | Hge].
  - rewrite <- (tech_up (x + 1) 2) by (simpl; lra). simpl. field. lra.
  - rewrite up_succ.
    pose proof (up_ge_2 x ltac:(lra)) as Hup.
    replace (Z.to_nat (up x + 1 - 2)) with (S (Z.to_nat (up x - 2))) by lia.
    apply falling_shift.
Qed.

Lemma Gamma_model_pos (x : R) : 0 < x -> 0 < Gamma_model x.
Proof.
  intros Hx. unfold Gamma_model. destruct (Rlt_dec x 1) as [Hlt | Hge].
  - apply Rinv_0_lt_compat, Hx.
  - apply falling_pos.
    pose proof (up_ge_2 x ltac:(lra)) as Hup.
    destruct (archimed x) as [_ Hlow].
    rewrite INR_IZR_INZ, Z2Nat.id, minus_IZR by lia. lra.
Qed.

(** ** The log-density on positive rows *)



Section LogProbPositive.

Variable Gamma : R -> R.
Hypothesis Gamma_pos : forall x : R, 0 < x -> 0 < Gamma x.



End LogProbPositive.



(** ** Gamma at the integers *)

Section GammaValues.

Variable Gamma : R -> R.
Hypothesis Gamma_1 : Gamma 1 = 1.
Hypothesis Gamma_rec : forall x : R, 0 < x -> Gamma (x + 1) = x * Gamma x.

Lemma Gamma_2 : Gamma 2 = 1.
Proof. replace 2 with (1 + 1) by lra. rewrite Gamma_rec, Gamma_1; lra. Qed.

Lemma Gamma_3 : Gamma 3 = 2.
Proof. replace 3 with (2 + 1) by lra. rewrite Gamma_rec, Gamma_2; lra. Qed.

Lemma Gamma_4 : Gamma 4 = 6.
Proof. replace 4 with (3 + 1) by lra. rewrite Gamma_rec, Gamma_3; lra. Qed.

Lemma lgamma_of_value (a g : R) :
  0 < a -> Gamma a = g -> 0 < g -> lgamma Gamma (Finite a) = Finite (ln g).
Proof.
  intros Ha Hg Hpos. unfold lgamma. rewrite (is_pole_positive a Ha), Hg.
  rewrite Rabs_pos_eq by lra. apply flog_finite, Hpos.
Qed.

Lemma lgamma_1 : lgamma Gamma (Finite 1) = Finite 0.
Proof. rewrite (lgamma_of_value 1 1) by (assumption || lra). rewrite ln_1. reflexivity. Qed.

Lemma lgamma_2 : lgamma Gamma (Finite 2) = Finite 0.
Proof.
  rewrite (lgamma_of_value 2 1) by (apply Gamma_2 || lra).
  rewrite ln_1. reflexivity.
Qed.

Lemma lgamma_3 : lgamma Gamma (Finite 3) = Finite (ln 2).
Proof. apply lgamma_of_value; [lra | apply Gamma_3 | lra]. Qed.

Lemma lgamma_4 : lgamma Gamma (Finite 4) = Finite (ln 6).
Proof. apply lgamma_of_value; [lra | apply Gamma_4 | lra]. Qed.

End GammaValues.

(** ** The uniform Dirichlet on three categories *)

(** C5.  With the default link and K = 3, [F = [[0, 0, 0]]] gives the
    concentration [[1, 1, 1]], the conditional mean [[1/3, 1/3, 1/3]], and
    at [Y = [[1/3, 1/3, 1/3]]] the log-density
    [log (Gamma(3) / Gamma(1)^3) = log 2]; Gamma enters through
    [Gamma(1) = 1] and [Gamma(x + 1) = x Gamma(x)]. *)
Theorem uniform_dirichlet_scenario (Gamma : R -> R)
    (super_init : obj -> kwargs -> result obj) (kw : kwargs) (self : obj) :
  Gamma 1 = 1 ->
  (forall x : R, 0 < x -> Gamma (x + 1) = x * Gamma x) ->
  Dirichlet_new super_init None kw = Ok self ->
  tf_exp (of_matrix [[0; 0; 0]]) = of_matrix [[1; 1; 1]] /\
  conditional_mean self (of_matrix [[0; 0; 0]])
    = Ok (of_matrix [[1 / 3; 1 / 3; 1 / 3]]) /\
  log_prob Gamma self (of_matrix [[0; 0; 0]]) (of_matrix [[1 / 3; 1 / 3; 1 / 3]])
    = Ok (of_reals [ln (Gamma 3 / Gamma 1 ^ 3)]) /\
  ln (Gamma 3 / Gamma 1 ^ 3) = ln 2.
Proof.
  intros Gamma_1 Gamma_rec Hnew.
  pose proof (init_invlink super_init None kw self Hnew) as Hlink. simpl in Hlink.
  assert (Hexp : map (map exp) [[0; 0; 0]] = [[1; 1; 1]])
    by (simpl; rewrite exp_0; reflexivity).
  assert (Halpha : tf_exp (of_matrix [[0; 0; 0]]) = of_matrix [[1; 1; 1]])
    by (rewrite tf_exp_of_matrix, Hexp; reflexivity).
  assert (Hval : Gamma 3 / Gamma 1 ^ 3 = 2).
  { rewrite (Gamma_3 Gamma Gamma_1 Gamma_rec), Gamma_1. field. }
  split; [exact Halpha |]. split; [| split].
  - rewrite (conditional_mean_exp self _ Hlink), Hexp.
    unfold Rsum. simpl. entrywise; field.
  - rewrite (log_prob_rows Gamma self tf_exp _ _ Hlink)
      by (rewrite Halpha; repeat constructor).
    rewrite Halpha. cbn [of_matrix map zip_with]. unfold spec_log_prob_row.
    rewrite xlogy_row_regular by (repeat constructor; lra).
    rewrite row_sum_of_reals.
    replace (Rsum [1; 1; 1]) with 3 by (unfold Rsum; simpl; lra).
    rewrite (lgamma_3 Gamma Gamma_1 Gamma_rec).
    cbn [of_reals map row_sum fold_right].
    rewrite (lgamma_1 Gamma Gamma_1).
    rewrite Hval. unfold Rsum. simpl. entrywise. lra.
  - rewrite Hval. reflexivity.
Qed.

Lemma uniform_dirichlet_scenario_witness :
  exists self : obj,
    Dirichlet_new gpflow_init None ∅ = Ok self /\
    conditional_mean self (of_matrix [[0; 0; 0]])
      = Ok (of_matrix [[1 / 3; 1 / 3; 1 / 3]]) /\
    log_prob Gamma_model self (of_matrix [[0; 0; 0]])
      (of_matrix [[1 / 3; 1 / 3; 1 / 3]])
      = Ok (of_reals [ln (Gamma_model 3 / Gamma_model 1 ^ 3)]) /\
    ln (Gamma_model 3 / Gamma_model 1 ^ 3) = ln 2.
Proof.
  eexists. split; [reflexivity |].
  apply (uniform_dirichlet_scenario Gamma_model gpflow_init ∅ _
           Gamma_model_1 Gamma_model_rec eq_refl).
Defined.

(** ** Shifting the latent values *)

Lemma scalar_add_of_matrix (M : list (list R)) (c : R) :
  scalar_op fadd (of_matrix M) (Finite c)
  = of_matrix (map (map (fun f => f + c)) M).
Proof.
  unfold scalar_op, of_matrix, of_reals. rewrite !map_map.
  apply map_ext. intros row. rewrite !map_map. reflexivity.
Qed.

Lemma Rsum_scale_mul (k : R) (a : list R) :
  Rsum (map (fun x => x * k) a) = Rsum a * k.
Proof.
  unfold Rsum. induction a as [| x a IH]; simpl; [lra | rewrite IH; lra].
Qed.

Lemma exp_shift_row (c : R) (row : list R) :
  map exp (map (fun f => f + c) row) = map (fun x => x * exp c) (map exp row).
Proof.
  rewrite !map_map. apply map_ext. intros f. apply exp_plus.
Qed.

Lemma mean_row_scale (k : R) (a : list R) :
  0 < k -> Forall (fun v => 0 < v) a ->
  map (fun x => x / Rsum (map (fun x => x * k) a)) (map (fun x => x * k) a)
  = map (fun x => x / Rsum a) a.
Proof.
  intros Hk Hpos. rewrite Rsum_scale_mul, map_map.
  apply map_ext_in. intros x Hx.
  assert (Hne : a <> []) by (intros ->; destruct Hx).
  pose proof (Rsum_pos a Hne Hpos). field. lra.
Qed.

Lemma conditional_mean_shift (self : obj) (M : list (list R)) (c : R) :
  self !! "invlink" = Some (VFun tf_exp) ->
  conditional_mean self (scalar_op fadd (of_matrix M) (Finite c))
  = conditional_mean self (of_matrix M).
Proof.
  intros Hlink. rewrite scalar_add_of_matrix.
  rewrite !(conditional_mean_exp self _ Hlink). do 2 f_equal.
  rewrite !map_map. apply map_ext. intros row.
  rewrite exp_shift_row. apply mean_row_scale; [apply exp_pos |].
  apply Forall_map, Forall_forall. intros x _. apply exp_pos.
Qed.

Lemma exp_shift_zero_pair :
  tf_exp (scalar_op fadd (of_matrix [[0; 0]]) (Finite (ln 2))) = of_matrix [[2; 2]].
Proof.
  rewrite scalar_add_of_matrix, tf_exp_of_matrix. simpl.
  rewrite Rplus_0_l, exp_ln by lra. reflexivity.
Qed.

Lemma ln_three_halves : ln (1 / 2) + ln (1 / 2) + ln 6 = ln (3 / 2).
Proof.
  rewrite <- !ln_mult by lra. f_equal. field.
Qed.

Lemma ln_three_halves_pos : 0 < ln (3 / 2).
Proof. rewrite <- ln_1. apply ln_increasing; lra. Qed.

(** ** Zero labels *)




(** ** Special values propagate *)

Lemma fadd_finite_inv (x y : num) :
  is_finite (fadd x y) -> is_finite x /\ is_finite y.
Proof.
  unfold is_finite.
  destruct x as [a | | |], y as [b | | |]; simpl; intros [r Hr];
    try discriminate; eauto.
Qed.

Lemma fsub_finite_inv (x y : num) :
  is_finite (fsub x y) -> is_finite x /\ is_finite y.
Proof.
  unfold fsub. intros H. apply fadd_finite_inv in H as [Hx Hy].
  split; [exact Hx |]. destruct y; try (destruct Hy; discriminate).
  eexists; reflexivity.
Qed.

Lemma row_sum_finite_inv (v : vector) :
  is_finite (row_sum v) -> Forall is_finite v.
Proof.
  unfold row_sum. induction v as [| x v IH]; cbn [fold_right]; intros H.
  - constructor.
  - apply fadd_finite_inv in H as [Hx Hv]. constructor; [exact Hx | exact (IH Hv)].
Qed.

Lemma signed_inf_not_finite (r : R) : ~ is_finite (signed_inf r).
Proof.
  unfold signed_inf. intros [x Hx].
  destruct (Req_EM_T r 0); [discriminate |].
  destruct (Rlt_dec 0 r); discriminate.
Qed.

Lemma xlogy_nonpositive_label (r yk : R) :
  r <> 1 -> yk <= 0 ->
  ~ is_finite (xlogy (fsub (Finite r) (Finite 1)) (Finite yk)).
Proof.
  intros Hr Hy. unfold xlogy. cbn [fsub fopp fadd is_zero flog].
  destruct (Req_EM_T (r + - (1)) 0); [lra |].
  destruct (Req_EM_T yk 0).
  - apply signed_inf_not_finite.
  - destruct (Rlt_dec 0 yk); [lra |]. intros [x Hx]. discriminate.
Qed.

Section Propagation.

Variable Gamma : R -> R.

Lemma spec_log_prob_row_bad_label (a y : vector) (k : nat) (r yk : R) :
  a !! k = Some (Finite r) ->
  y !! k = Some (Finite yk) ->
  r <> 1 -> yk <= 0 ->
  ~ is_finite (spec_log_prob_row Gamma a y).
Proof.
  intros Ha Hy Hr Hyk Hfin. unfold spec_log_prob_row in Hfin.
  apply fsub_finite_inv in Hfin as [Hsum _].
  apply row_sum_finite_inv in Hsum.
  rewrite Forall_lookup in Hsum.
  apply (xlogy_nonpositive_label r yk Hr Hyk).
  apply (Hsum k). rewrite lookup_zip_with, Ha, Hy. reflexivity.
Qed.

Lemma spec_log_prob_row_zero_concentration (a y : vector) (k : nat) :
  a !! k = Some (Finite 0) ->
  ~ is_finite (spec_log_prob_row Gamma a y).
Proof.
  intros Ha Hfin. unfold spec_log_prob_row in Hfin.
  apply fsub_finite_inv in Hfin as [_ Hbeta].
  apply fsub_finite_inv in Hbeta as [Hsum _].
  apply row_sum_finite_inv in Hsum.
  rewrite Forall_lookup in Hsum.
  assert (Hk : map (lgamma Gamma) a !! k = Some (lgamma Gamma (Finite 0)))
    by (rewrite list_lookup_fmap, Ha; reflexivity).
  apply Hsum in Hk. unfold lgamma in Hk. rewrite is_pole_zero in Hk.
  destruct Hk as [x Hx]. discriminate.
Qed.

End Propagation.

Lemma exp_ln2_pair : tf_exp (of_matrix [[ln 2; ln 2]]) = of_matrix [[2; 2]].
Proof. rewrite tf_exp_of_matrix. simpl. rewrite exp_ln by lra. reflexivity. Qed.

(** C8 (as amended).  The three operations validate nothing.  The two
    moments return a tensor for every [F]; [log_prob] returns one whenever
    the concentration and [Y] have the same shape, and in the row of a
    label [y_k <= 0] whose concentration is a real number other than 1, or
    of a concentration entry equal to 0, the returned entry is not finite:
    it is an infinity or NaN, not a raised error.  (The operations are
    functions of [F] and [Y]: they cannot change them.) *)
Theorem operations_do_not_validate (Gamma : R -> R) (self : obj)
    (link : tensor -> tensor) :
  self !! "invlink" = Some (VFun link) ->
  (forall F : tensor,
     succeeds (conditional_mean self F) /\ succeeds (conditional_variance self F)) /\
  (forall F Y : tensor,
     same_shape (link F) Y -> succeeds (log_prob Gamma self F Y)) /\
  (forall (F Y : tensor) (out : vector) (i : nat) (a y : vector),
     same_shape (link F) Y ->
     log_prob Gamma self F Y = Ok out ->
     link F !! i = Some a ->
     Y !! i = Some y ->
     malformed_row a y ->
     exists o : num, out !! i = Some o /\ ~ is_finite o).
Proof.
  intros Hlink. split; [| split].
  - intros F. split; eexists.
    + apply conditional_mean_rows, Hlink.
    + apply conditional_variance_rows, Hlink.
  - intros F Y Hs. eexists. apply log_prob_rows; eassumption.
  - intros F Y out i a y Hs Hout Ha Hy Hbad.
    rewrite (log_prob_rows Gamma self link F Y Hlink Hs) in Hout.
    injection Hout as <-.
    exists (spec_log_prob_row Gamma a y). split.
    + rewrite lookup_zip_with, Ha, Hy. reflexivity.
    + destruct Hbad as [(k & r & yk & Hak & Hyk & Hr & Hle) | [k Hak]].
      * eapply spec_log_prob_row_bad_label; eassumption.
      * eapply spec_log_prob_row_zero_concentration; eassumption.
Qed.

Lemma operations_do_not_validate_witness :
  exists (out : vector) (o : num),
    log_prob Gamma_model {["invlink" := VFun tf_exp]}
      (of_matrix [[ln 2; ln 2]]) (of_matrix [[0; 1]]) = Ok out /\
    out !! 0%nat = Some o /\ ~ is_finite o.
Proof.
  destruct (operations_do_not_validate Gamma_model {["invlink" := VFun tf_exp]}
              tf_exp (lookup_singleton_eq _ _)) as (_ & Hok & Hbad).
  assert (Hs : same_shape (tf_exp (of_matrix [[ln 2; ln 2]])) (of_matrix [[0; 1]]))
    by (rewrite exp_ln2_pair; repeat constructor).
  destruct (Hok _ _ Hs) as [out Hout]. exists out.
  destruct (Hbad _ _ out 0%nat (of_reals [2; 2]) (of_reals [0; 1]) Hs Hout)
    as (o & Ho & Hnf).
  - rewrite exp_ln2_pair. reflexivity.
  - reflexivity.
  - left. exists 0%nat, 2, 0. repeat split; try reflexivity; lra.
  - exists o. repeat split; assumption.
Defined.

(** C8, the claim as stated fails.  With the default link, [F = [[0, 0]]]
    and a label row of three entries raise the shape error; the label row
    [[1/2, 1/4]], off the simplex, gives the finite log-density 0; and with
    the identity link the concentration [[-1, 3]], not positive, gives the
    finite mean [[-1/2, 3/2]]. *)
Lemma malformed_inputs_counterexample :
  exists lik lik_id : obj,
    Dirichlet_new gpflow_init None ∅ = Ok lik /\
    Dirichlet_new gpflow_init (Some (fun t : tensor => t)) ∅ = Ok lik_id /\
    log_prob Gamma_model lik (of_matrix [[0; 0]]) (of_matrix [[1 / 2; 1 / 4; 1 / 4]])
      = Raise InvalidArgumentError /\
    log_prob Gamma_model lik (of_matrix [[0; 0]]) (of_matrix [[1 / 2; 1 / 4]])
      = Ok (of_reals [0]) /\
    conditional_mean lik_id (of_matrix [[-1; 3]]) = Ok (of_matrix [[-1 / 2; 3 / 2]]).
Proof.
  eexists. eexists. split; [reflexivity |]. split; [reflexivity |].
  match goal with
  | |- log_prob _ ?l _ _ = _ /\ _ =>
      assert (Hlink : l !! "invlink" = Some (VFun tf_exp))
        by (apply (init_invlink gpflow_init None ∅); reflexivity)
  end.
  split; [| split].
  - unfold log_prob. rewrite (self_invlink_ok _ tf_exp Hlink). cbn [bind].
    rewrite exp_zero_pair. reflexivity.
  - rewrite (log_prob_rows Gamma_model _ tf_exp _ _ Hlink)
      by (rewrite exp_zero_pair; repeat constructor).
    rewrite exp_zero_pair. cbn [of_matrix map zip_with].
    rewrite (spec_log_prob_row_regular Gamma_model Gamma_model_pos)
      by (try discriminate; repeat constructor; lra).
    unfold dirichlet_log_density, Rsum. simpl.
    replace (1 + (1 + 0)) with 2 by lra.
    rewrite (Gamma_2 Gamma_model Gamma_model_1 Gamma_model_rec), Gamma_model_1, ln_1.
    entrywise. lra.
  - match goal with
    | |- conditional_mean ?l _ = _ =>
        rewrite (conditional_mean_rows l (fun t => t))
          by (apply (init_invlink gpflow_init (Some (fun t : tensor => t)) ∅);
              reflexivity)
    end.
    cbn [of_matrix map]. rewrite spec_mean_row_reals by (unfold Rsum; simpl; lra).
    unfold Rsum. simpl. entrywise; field.
Qed.

(** ** Sampling *)


Lemma counter_gamma_seeded (g g' n : nat) (alpha : vector) (s : Z) :
  fst (counter_gamma g n alpha (Some s)) = fst (counter_gamma g' n alpha (Some s)).
Proof. reflexivity. Qed.

Section Sampling.

Variable rng : Type.
Variable tf_random_gamma : rng -> nat -> vector -> option Z -> tensor * rng.


End Sampling.

(** * Further properties of the class *)

(** ** The constructor and the methods together *)

(** Every instance the constructor returns answers the three operations
    with the link it was given (the exponential when none was given),
    whatever the keyword arguments and whatever attributes the framework's
    constructor set, an [invlink] of its own included: the attribute read
    never fails, the two moments never raise, and [log_prob] is [_log_prob]
    at the concentration. *)
Theorem constructed_instance_uses_its_link (Gamma : R -> R)
    (super_init : obj -> kwargs -> result obj)
    (invlink : option (tensor -> tensor)) (kw : kwargs) (self : obj) :
  Dirichlet_new super_init invlink kw = Ok self ->
  forall F Y : tensor,
    conditional_mean self F = Ok (map spec_mean_row (default tf_exp invlink F)) /\
    conditional_variance self F
      = Ok (map spec_variance_row (default tf_exp invlink F)) /\
    log_prob Gamma self F Y = _log_prob Gamma (default tf_exp invlink F) Y.
Proof.
  intros Hnew F Y.
  pose proof (init_invlink super_init invlink kw self Hnew) as Hlink.
  split; [apply conditional_mean_rows, Hlink |].
  split; [apply conditional_variance_rows, Hlink |].
  unfold log_prob. rewrite (self_invlink_ok self _ Hlink). reflexivity.
Qed.

Lemma constructed_instance_uses_its_link_witness :
  exists self : obj,
    Dirichlet_new (fun _ _ => Ok {["invlink" := VInt 3]}) None ∅ = Ok self /\
    conditional_mean self (of_matrix [[0; 0]])
      = Ok (map spec_mean_row (tf_exp (of_matrix [[0; 0]]))).
Proof.
  eexists. split; [reflexivity |].
  apply (constructed_instance_uses_its_link Gamma_model
           (fun _ _ => Ok {["invlink" := VInt 3]}) None ∅ _ eq_refl
           (of_matrix [[0; 0]]) []).
Defined.

(** The constructor writes two attributes and no other: every other
    attribute of the instance is the one the framework's constructor left. *)
Theorem init_keeps_other_attributes (super_init : obj -> kwargs -> result obj)
    (invlink : option (tensor -> tensor)) (kw : kwargs) (self : obj) (name : string) :
  Dirichlet_new super_init invlink kw = Ok self ->
  name <> "invlink" ->
  name <> "num_monte_carlo_points" ->
  exists base : obj, super_init ∅ kw = Ok base /\ self !! name = base !! name.
Proof.
  intros Hnew Hn1 Hn2.
  destruct (init_unfold super_init invlink kw self Hnew) as (base & Hbase & ->).
  exists base. split; [exact Hbase |].
  rewrite !lookup_insert_ne by congruence. reflexivity.
Qed.

Lemma init_keeps_other_attributes_witness :
  exists self : obj,
    Dirichlet_new gpflow_init None {["latent_dim" := VInt 3]} = Ok self /\
    self !! "latent_dim" = Some (VInt 3).
Proof.
  eexists. split; [reflexivity |].
  destruct (init_keeps_other_attributes gpflow_init None
              {["latent_dim" := VInt 3]} _ "latent_dim" eq_refl)
    as (base & Hbase & ->); try discriminate.
  injection Hbase as <-. reflexivity.
Defined.

(** ** Shapes that do not match, and shapes that broadcast *)

Lemma zip_rows_mismatch (op : num -> num -> num) (A B : tensor)
    (i : nat) (a b : vector) :
  A !! i = Some a -> B !! i = Some b ->
  length a <> length b -> (1 < length a)%nat -> (1 < length b)%nat ->
  zip_rows op A B = Raise InvalidArgumentError.
Proof.
  revert B i. induction A as [| a0 A IH]; intros [| b0 B] i Ha Hb Hne H1 H2;
    try discriminate.
  destruct i as [| i]; simpl in Ha, Hb.
  - injection Ha as ->. injection Hb as ->. cbn [zip_rows].
    rewrite bcast_mismatch by assumption. reflexivity.
  - cbn [zip_rows]. destruct (bcast op a0 b0) as [r | e] eqn:E; cbn [bind].
    + rewrite (IH B i Ha Hb Hne H1 H2). reflexivity.
    + unfold bcast in E. destruct (Nat.eqb (length a0) (length b0)); [discriminate |].
      destruct a0 as [| ? [| ? ?]], b0 as [| ? [| ? ?]]; try discriminate;
        injection E as <-; reflexivity.
Qed.

Lemma zip_rows_repeat_l (op : num -> num -> num) (a : vector) (Y : tensor) :
  Forall (fun y => length y = length a) Y ->
  zip_rows op (repeat a (length Y)) Y = Ok (map (zip_with op a) Y).
Proof.
  induction 1 as [| y Y Hy _ IH]; cbn [length repeat zip_rows map]; [reflexivity |].
  rewrite bcast_same by (symmetry; exact Hy). cbn [bind]. rewrite IH. reflexivity.
Qed.

Lemma zip_rows_repeat_r (op : num -> num -> num) (A : tensor) (y : vector) :
  Forall (fun a => length a = length y) A ->
  zip_rows op A (repeat y (length A)) = Ok (map (fun a => zip_with op a y) A).
Proof.
  induction 1 as [| a A Ha _ IH]; cbn [length repeat zip_rows map]; [reflexivity |].
  rewrite bcast_same by exact Ha. cbn [bind]. rewrite IH. reflexivity.
Qed.

Lemma bcast2_single_l (op : num -> num -> num) (a : vector) (Y : tensor) :
  Forall (fun y => length y = length a) Y ->
  bcast2 op [a] Y = Ok (map (zip_with op a) Y).
Proof.
  intros HY. unfold bcast2. destruct Y as [| y [| y' Y]].
  - reflexivity.
  - inversion HY; subst. cbn [length Nat.eqb zip_rows map].
    rewrite bcast_same by (symmetry; assumption). reflexivity.
  - cbn [length Nat.eqb]. apply (zip_rows_repeat_l op a (y :: y' :: Y) HY).
Qed.

Lemma bcast2_single_r (op : num -> num -> num) (A : tensor) (y : vector) :
  Forall (fun a => length a = length y) A ->
  bcast2 op A [y] = Ok (map (fun a => zip_with op a y) A).
Proof.
  intros HA. unfold bcast2. destruct A as [| a [| a' A]].
  - reflexivity.
  - inversion HA; subst. cbn [length Nat.eqb zip_rows map].
    rewrite bcast_same by assumption. reflexivity.
  - cbn [length Nat.eqb]. apply (zip_rows_repeat_r op (a :: a' :: A) y HA).
Qed.

Section Broadcast.

Variable Gamma : R -> R.

Lemma _log_prob_single_concentration (a : vector) (Y : tensor) :
  Forall (fun y => length y = length a) Y ->
  _log_prob Gamma [a] Y = Ok (map (spec_log_prob_row Gamma a) Y).
Proof.
  intros HY. unfold _log_prob, tf_math_xlogy, scalar_op. cbn [map].
  rewrite bcast2_single_l
    by (eapply Forall_impl; [exact HY |]; intros y Hy; rewrite length_map; exact Hy).
  cbn [bind]. unfold tf_reduce_sum, tf_math_lbeta. cbn [map].
  rewrite bcast_stretch_r, !map_map. f_equal. apply map_ext. intros y.
  unfold spec_log_prob_row, lbeta_row. rewrite zip_with_map_l. reflexivity.
Qed.

Lemma _log_prob_single_label (A : tensor) (y : vector) :
  Forall (fun a => length a = length y) A ->
  _log_prob Gamma A [y] = Ok (map (fun a => spec_log_prob_row Gamma a y) A).
Proof.
  intros HA. unfold _log_prob, tf_math_xlogy, scalar_op.
  rewrite bcast2_single_r
    by (apply Forall_map; eapply Forall_impl; [exact HA |];
        intros a Ha; rewrite length_map; exact Ha).
  cbn [bind]. unfold tf_reduce_sum, tf_math_lbeta. rewrite !map_map.
  rewrite bcast_same by (rewrite !length_map; reflexivity).
  rewrite zip_with_map_l, zip_with_map_r. f_equal. apply map_ext. intros a.
  unfold spec_log_prob_row, lbeta_row. rewrite zip_with_map_l. reflexivity.
Qed.

End Broadcast.

(** [log_prob] raises the shape error of the backend when the concentration
    and the labels cannot be broadcast: when both have more than one row
    and not the same number of rows, or when they have as many rows and some
    pair of rows has different lengths, both greater than 1. *)
Theorem log_prob_shape_error (Gamma : R -> R) (self : obj)
    (link : tensor -> tensor) (F Y : tensor) :
  self !! "invlink" = Some (VFun link) ->
  ((1 < length (link F))%nat /\ (1 < length Y)%nat /\ length (link F) <> length Y) \/
  (length (link F) = length Y /\
   exists (i : nat) (a y : vector),
     link F !! i = Some a /\ Y !! i = Some y /\
     length a <> length y /\ (1 < length a)%nat /\ (1 < length y)%nat) ->
  log_prob Gamma self F Y = Raise InvalidArgumentError.
Proof.
  intros Hlink Hbad. unfold log_prob. rewrite (self_invlink_ok self link Hlink).
  cbn [bind]. unfold _log_prob, tf_math_xlogy, bcast2, scalar_op.
  rewrite length_map.
  destruct Hbad as [(H1 & H2 & Hne) | (Heq & i & a & y & Ha & Hy & Hne & H1 & H2)].
  - apply Nat.eqb_neq in Hne. rewrite Hne.
    destruct (link F) as [| a [| a' C]]; simpl in H1; try lia.
    destruct Y as [| y [| y' Y]]; simpl in H2; try lia. reflexivity.
  - rewrite Heq, Nat.eqb_refl.
    rewrite (zip_rows_mismatch xlogy _ Y i (map (fun x => fsub x (Finite 1)) a) y).
    + reflexivity.
    + rewrite list_lookup_fmap, Ha. reflexivity.
    + exact Hy.
    + rewrite length_map. exact Hne.
    + rewrite length_map. exact H1.
    + exact H2.
Qed.

Lemma log_prob_shape_error_witness :
  log_prob Gamma_model {["invlink" := VFun tf_exp]}
    (of_matrix [[0; 0]]) (of_matrix [[1 / 2; 1 / 4; 1 / 4]])
  = Raise InvalidArgumentError.
Proof.
  apply (log_prob_shape_error Gamma_model {["invlink" := VFun tf_exp]} tf_exp
           _ _ (lookup_singleton_eq _ _)).
  right. split; [reflexivity |].
  exists 0%nat, (map fexp (of_reals [0; 0])), (of_reals [1 / 2; 1 / 4; 1 / 4]).
  repeat split; simpl; lia.
Defined.

(** [log_prob] broadcasts along the rows: one concentration row is scored
    against every label row, and every concentration row against one label
    row, for any number of rows on the other side. *)
Theorem log_prob_broadcasts_rows (Gamma : R -> R) (self : obj)
    (link : tensor -> tensor) (F Y : tensor) :
  self !! "invlink" = Some (VFun link) ->
  (forall a : vector,
     link F = [a] ->
     Forall (fun y => length y = length a) Y ->
     log_prob Gamma self F Y = Ok (map (spec_log_prob_row Gamma a) Y)) /\
  (forall y : vector,
     Y = [y] ->
     Forall (fun a => length a = length y) (link F) ->
     log_prob Gamma self F Y
     = Ok (map (fun a => spec_log_prob_row Gamma a y) (link F))).
Proof.
  intros Hlink. unfold log_prob. rewrite (self_invlink_ok self link Hlink).
  cbn [bind]. split.
  - intros a -> HY. apply _log_prob_single_concentration, HY.
  - intros y -> HA. apply _log_prob_single_label, HA.
Qed.

Lemma log_prob_broadcasts_rows_witness :
  log_prob Gamma_model {["invlink" := VFun tf_exp]}
    (of_matrix [[0; 0]]) (of_matrix [[1 / 2; 1 / 2]; [1 / 4; 3 / 4]; [1; 0]])
  = Ok (map (spec_log_prob_row Gamma_model (of_reals [1; 1]))
          (of_matrix [[1 / 2; 1 / 2]; [1 / 4; 3 / 4]; [1; 0]])).
Proof.
  destruct (log_prob_broadcasts_rows Gamma_model {["invlink" := VFun tf_exp]}
              tf_exp (of_matrix [[0; 0]])
              (of_matrix [[1 / 2; 1 / 2]; [1 / 4; 3 / 4]; [1; 0]])
              (lookup_singleton_eq _ _)) as [H _].
  apply H.
  - apply exp_zero_pair.
  - repeat constructor.
Defined.

(** ** Shapes of the results, and inputs without categories *)

Lemma same_shape_map_rows (f : vector -> vector) (C : tensor) :
  (forall row, length (f row) = length row) -> same_shape (map f C) C.
Proof.
  intros Hf. unfold same_shape. induction C as [| row C IH]; simpl; constructor.
  - apply Hf.
  - exact IH.
Qed.

(** The two moments have the shape of the concentration, and [log_prob]
    returns one entry for each row of labels of the same shape. *)
Theorem operations_keep_the_shape (Gamma : R -> R) (self : obj)
    (link : tensor -> tensor) (F : tensor) :
  self !! "invlink" = Some (VFun link) ->
  (exists m v : tensor,
     conditional_mean self F = Ok m /\ conditional_variance self F = Ok v /\
     same_shape m (link F) /\ same_shape v (link F)) /\
  (forall Y : tensor,
     same_shape (link F) Y ->
     exists out : vector, log_prob Gamma self F Y = Ok out /\ length out = length Y).
Proof.
  intros Hlink. split.
  - exists (map spec_mean_row (link F)), (map spec_variance_row (link F)).
    split; [apply conditional_mean_rows, Hlink |].
    split; [apply conditional_variance_rows, Hlink |].
    split; apply same_shape_map_rows; intros row;
      unfold spec_mean_row, spec_variance_row; apply length_map.
  - intros Y Hs. eexists. split; [apply log_prob_rows; eassumption |].
    rewrite length_zip_with. apply Forall2_length in Hs. lia.
Qed.

Lemma operations_keep_the_shape_witness :
  exists out : vector,
    log_prob Gamma_model {["invlink" := VFun tf_exp]}
      (of_matrix [[0; 0]; [1; 2]]) (of_matrix [[1 / 2; 1 / 2]; [1; 0]]) = Ok out /\
    length out = 2%nat.
Proof.
  destruct (operations_keep_the_shape Gamma_model {["invlink" := VFun tf_exp]}
              tf_exp (of_matrix [[0; 0]; [1; 2]]) (lookup_singleton_eq _ _))
    as [_ H].
  apply (H (of_matrix [[1 / 2; 1 / 2]; [1; 0]])). repeat constructor.
Defined.

Lemma map_repeat_rows {A B : Type} (f : A -> B) (x : A) (n : nat) :
  map f (repeat x n) = repeat (f x) n.
Proof. induction n as [| n IH]; simpl; [reflexivity | rewrite IH; reflexivity]. Qed.

Lemma same_shape_refl (A : tensor) : same_shape A A.
Proof. unfold same_shape. induction A; constructor; auto. Qed.

(** With no category, under the default link: on [n] rows without entries
    the two moments return the [n] empty rows, and [log_prob] returns +inf
    for each row, the log-beta of an empty row being -inf. *)
Theorem no_category_rows (Gamma : R -> R) (self : obj) (n : nat) :
  self !! "invlink" = Some (VFun tf_exp) ->
  conditional_mean self (repeat [] n) = Ok (repeat [] n) /\
  conditional_variance self (repeat [] n) = Ok (repeat [] n) /\
  log_prob Gamma self (repeat [] n) (repeat [] n) = Ok (repeat PosInf n).
Proof.
  intros Hlink.
  assert (Hexp : tf_exp (repeat [] n) = repeat [] n)
    by (unfold tf_exp; rewrite map_repeat_rows; reflexivity).
  rewrite (conditional_mean_rows self tf_exp Hlink),
    (conditional_variance_rows self tf_exp Hlink), Hexp.
  rewrite !map_repeat_rows. split; [reflexivity |]. split; [reflexivity |].
  rewrite (log_prob_rows Gamma self tf_exp _ _ Hlink)
    by (rewrite Hexp; apply same_shape_refl).
  rewrite Hexp. f_equal. clear Hexp.
  induction n as [| n IH]; simpl; [reflexivity |].
  rewrite IH. f_equal.
  unfold spec_log_prob_row. cbn [zip_with map row_sum fold_right].
  unfold lgamma. rewrite is_pole_zero. reflexivity.
Qed.

Lemma no_category_rows_witness :
  log_prob Gamma_model {["invlink" := VFun tf_exp]} [[]; []] [[]; []]
  = Ok [PosInf; PosInf].
Proof.
  apply (no_category_rows Gamma_model {["invlink" := VFun tf_exp]} 2
           (lookup_singleton_eq _ _)).
Defined.

(** ** The zero latent: the uniform Dirichlet *)

Lemma Rsum_repeat (c : R) (K : nat) : Rsum (repeat c K) = INR K * c.
Proof.
  unfold Rsum. induction K as [| K IH]; [simpl; lra |].
  change (repeat c (S K)) with (c :: repeat c K). cbn [fold_right].
  rewrite IH, S_INR. ring.
Qed.

Lemma tf_exp_zeros (K n : nat) :
  tf_exp (of_matrix (repeat (repeat 0 K) n)) = of_matrix (repeat (repeat 1 K) n).
Proof.
  rewrite tf_exp_of_matrix. f_equal.
  rewrite !map_repeat_rows, exp_0. reflexivity.
Qed.

Lemma xlogy_row_ones (K : nat) (y : vector) :
  row_sum (zip_with (fun a yk => xlogy (fsub a (Finite 1)) yk)
             (of_reals (repeat 1 K)) y) = Finite 0.
Proof.
  unfold row_sum, of_reals. revert y.
  induction K as [| K IH]; intros [| yk y]; try reflexivity.
  change (repeat 1 (S K)) with (1 :: repeat 1 K). cbn [map zip_with fold_right].
  rewrite IH.
  change (fsub (Finite 1) (Finite 1)) with (Finite (1 - 1)).
  replace (1 - 1) with 0 by lra. rewrite xlogy_zero. simpl. f_equal. lra.
Qed.

Section UniformDirichlet.

Variable Gamma : R -> R.
Hypothesis Gamma_1 : Gamma 1 = 1.
Hypothesis Gamma_rec : forall x : R, 0 < x -> Gamma (x + 1) = x * Gamma x.

Lemma Gamma_factorial (n : nat) : Gamma (INR (S n)) = INR (fact n).
Proof.
  induction n as [| n IH].
  - simpl. exact Gamma_1.
  - rewrite (S_INR (S n)), Gamma_rec by (apply lt_0_INR; lia).
    rewrite IH, <- mult_INR. reflexivity.
Qed.

Lemma lgamma_row_ones (K : nat) :
  row_sum (map (lgamma Gamma) (of_reals (repeat 1 K))) = Finite 0.
Proof.
  unfold row_sum, of_reals. induction K as [| K IH]; [reflexivity |].
  change (repeat 1 (S K)) with (1 :: repeat 1 K). cbn [map fold_right].
  rewrite IH, (lgamma_1 Gamma Gamma_1). simpl. f_equal. lra.
Qed.

Lemma spec_log_prob_row_ones (k : nat) (y : vector) :
  spec_log_prob_row Gamma (of_reals (repeat 1 (S k))) y
  = Finite (ln (INR (fact k))).
Proof.
  unfold spec_log_prob_row.
  rewrite xlogy_row_ones, lgamma_row_ones, row_sum_of_reals, Rsum_repeat, Rmult_1_r.
  rewrite (lgamma_of_value Gamma (INR (S k)) (INR (fact k))).
  - simpl. f_equal. lra.
  - apply lt_0_INR. lia.
  - apply Gamma_factorial.
  - apply lt_0_INR, lt_O_fact.
Qed.

End UniformDirichlet.

(** The zero latent gives the uniform density, as the docstring of the
    constructor says: under the default link, on [n] rows of [k + 1] zeros,
    [log_prob] returns [log (k!)] for every row whatever the labels of that
    shape are, zero, negative, infinite or NaN entries included. *)
Theorem log_prob_zero_latent_is_uniform (Gamma : R -> R) (self : obj)
    (k n : nat) (Y : tensor) :
  Gamma 1 = 1 ->
  (forall x : R, 0 < x -> Gamma (x + 1) = x * Gamma x) ->
  self !! "invlink" = Some (VFun tf_exp) ->
  same_shape (of_matrix (repeat (repeat 0 (S k)) n)) Y ->
  log_prob Gamma self (of_matrix (repeat (repeat 0 (S k)) n)) Y
  = Ok (repeat (Finite (ln (INR (fact k)))) n).
Proof.
  intros Gamma_1 Gamma_rec Hlink Hs.
  assert (Hs' : same_shape (of_matrix (repeat (repeat 1 (S k)) n)) Y).
  { eapply same_shape_trans; [| exact Hs].
    rewrite <- tf_exp_zeros. apply same_shape_tf_exp. }
  rewrite (log_prob_rows Gamma self tf_exp _ _ Hlink) by (rewrite tf_exp_zeros; exact Hs').
  rewrite tf_exp_zeros. f_equal. clear Hs.
  unfold of_matrix in *. rewrite map_repeat_rows in *.
  pose proof (spec_log_prob_row_ones Gamma Gamma_1 Gamma_rec k) as Hrow.
  revert Hrow Hs'. generalize (of_reals (repeat 1 (S k))). intros r Hrow.
  revert Y. induction n as [| n IH]; intros Y Hs'; inversion Hs'; subst;
    [reflexivity |].
  cbn [repeat zip_with]. rewrite Hrow. f_equal. apply IH. assumption.
Qed.

Lemma log_prob_zero_latent_is_uniform_witness :
  log_prob Gamma_model {["invlink" := VFun tf_exp]}
    (of_matrix (repeat (repeat 0 3) 1)) [[Finite 0; NaN; NegInf]]
  = Ok (repeat (Finite (ln (INR (fact 2)))) 1).
Proof.
  apply (log_prob_zero_latent_is_uniform Gamma_model
           {["invlink" := VFun tf_exp]} 2 1 [[Finite 0; NaN; NegInf]]
           Gamma_model_1 Gamma_model_rec (lookup_singleton_eq _ _)).
  repeat constructor.
Defined.

(** Under the default link the zero latent has the moments of the uniform
    Dirichlet: on [n] rows of [k + 1] zeros every mean is [1 / (k + 1)] and
    every variance [k / ((k + 1)^2 (k + 2))]. *)
Theorem moments_zero_latent (self : obj) (k n : nat) :
  self !! "invlink" = Some (VFun tf_exp) ->
  conditional_mean self (of_matrix (repeat (repeat 0 (S k)) n))
    = Ok (of_matrix (repeat (repeat (1 / INR (S k)) (S k)) n)) /\
  conditional_variance self (of_matrix (repeat (repeat 0 (S k)) n))
    = Ok (of_matrix
            (repeat (repeat (INR k / (INR (S k) * INR (S k) * (INR (S k) + 1)))
                       (S k)) n)).
Proof.
  intros Hlink.
  assert (HK : 0 < INR (S k)) by (apply lt_0_INR; lia).
  split.
  - rewrite (conditional_mean_exp self _ Hlink). do 2 f_equal.
    rewrite !map_repeat_rows, exp_0, Rsum_repeat, Rmult_1_r. reflexivity.
  - rewrite (conditional_variance_positive self tf_exp _
               (repeat (repeat 1 (S k)) n) Hlink (tf_exp_zeros (S k) n)).
    + do 2 f_equal. rewrite !map_repeat_rows, Rsum_repeat, Rmult_1_r.
      do 2 f_equal. rewrite (S_INR k). field. rewrite S_INR in HK. lra.
    + apply Forall_forall. intros row Hrow.
      apply list_elem_of_In, repeat_spec in Hrow. subst row.
      apply Forall_forall. intros x Hx.
      apply list_elem_of_In, repeat_spec in Hx. lra.
Qed.

Lemma moments_zero_latent_witness :
  conditional_mean {["invlink" := VFun tf_exp]} (of_matrix (repeat (repeat 0 4) 2))
  = Ok (of_matrix (repeat (repeat (1 / INR 4) 4) 2)).
Proof.
  apply (moments_zero_latent {["invlink" := VFun tf_exp]} 3 2
           (lookup_singleton_eq _ _)).
Defined.

(** ** Bounds on the variance *)

Lemma variance_entry_below_quarter (x S : R) :
  0 < x -> x <= S -> x * (S - x) / (S * S * (S + 1)) < 1 / 4.
Proof.
  intros Hx HS.
  assert (Hden : 0 < S * S * (S + 1)) by (apply Rmult_lt_0_compat; nra).
  apply (Rmult_lt_reg_r (S * S * (S + 1))); [exact Hden |].
  unfold Rdiv. rewrite Rmult_assoc, Rinv_l by lra.
  pose proof (Rle_0_sqr (S - 2 * x)) as Hsq. unfold Rsqr in Hsq.
  assert (0 < S * S * S) by (repeat apply Rmult_lt_0_compat; lra).
  lra.
Qed.



(** ** Labels on the boundary of the simplex *)





Section Boundary.

Variable Gamma : R -> R.
Hypothesis Gamma_pos : forall x : R, 0 < x -> 0 < Gamma x.




End Boundary.




(** ** A concentration row that sums to zero *)



(** ** Samples as labels *)





(** ** Renumbering the categories *)









Section Exchangeable.

Variable Gamma : R -> R.




End Exchangeable.




(** * The moments with the range of float64 *)

(** ** The thresholds *)

Lemma pow2_pos (n : nat) : 0 < 2 ^ n.
Proof. apply pow_lt. lra. Qed.

Lemma pow2_le (n m : nat) : (n <= m)%nat -> 2 ^ n <= 2 ^ m.
Proof. intros H. apply Rle_pow; [lra | exact H]. Qed.

Lemma unf_pos : 0 < unf.
Proof. apply Rinv_0_lt_compat, pow2_pos. Qed.

Lemma ovf_ge_pow : 2 ^ 1023 <= ovf.
Proof.
  unfold ovf. pose proof (pow2_pos 1023).
  assert (/ 2 ^ 53 <= 1).
  { rewrite <- Rinv_1. apply Rinv_le_contravar; [lra |]. apply pow_R1_Rle. lra. }
  nra.
Qed.

Lemma ovf_lt_pow : ovf < 2 ^ 1024.
Proof.
  unfold ovf. change (2 ^ 1024) with (2 * 2 ^ 1023).
  pose proof (pow2_pos 1023). pose proof (Rinv_0_lt_compat _ (pow2_pos 53)). nra.
Qed.

Lemma pow2_lt_ovf (n : nat) : (n <= 1022)%nat -> 2 ^ n < ovf.
Proof.
  intros Hn. apply Rlt_le_trans with (2 ^ 1023); [| exact ovf_ge_pow].
  apply Rlt_pow; [lra | lia].
Qed.

Lemma unf_lt_inv_pow2 (n : nat) : (n <= 1074)%nat -> unf < / 2 ^ n.
Proof.
  intros Hn. unfold unf. apply Rinv_lt_contravar.
  - apply Rmult_lt_0_compat; apply pow2_pos.
  - apply Rlt_pow; [lra | lia].
Qed.

Lemma unf_small : unf < / 1024.
Proof. pose proof (unf_lt_inv_pow2 10 ltac:(lia)). lra. Qed.

Lemma ovf_large : 1024 < ovf.
Proof. pose proof (pow2_lt_ovf 10 ltac:(lia)). lra. Qed.

(** ** Rounding to the range *)

Lemma to_float64_kept (r : R) : kept r -> to_float64 (Finite r) = Finite r.
Proof.
  intros Hk. pose proof unf_pos. pose proof ovf_large.
  destruct Hk as [-> | [Hlo Hhi]]; unfold to_float64.
  - rewrite Rabs_R0. destruct (Rle_dec ovf 0); [lra |].
    destruct (Rle_dec 0 unf); [reflexivity | lra].
  - destruct (Rle_dec ovf (Rabs r)); [lra |].
    destruct (Rle_dec (Rabs r) unf); [lra | reflexivity].
Qed.

Lemma to_float64_overflow (r : R) : ovf <= r -> to_float64 (Finite r) = PosInf.
Proof.
  intros Hr. pose proof ovf_large. unfold to_float64.
  rewrite Rabs_pos_eq by lra. destruct (Rle_dec ovf r); [| contradiction].
  destruct (Rlt_dec 0 r); [reflexivity | lra].
Qed.

Lemma to_float64_underflow (r : R) :
  0 <= r -> r <= unf -> to_float64 (Finite r) = Finite 0.
Proof.
  intros Hr0 Hr. pose proof unf_small. pose proof ovf_large. unfold to_float64.
  rewrite Rabs_pos_eq by lra. destruct (Rle_dec ovf r); [lra |].
  destruct (Rle_dec r unf); [reflexivity | contradiction].
Qed.

Lemma to_float64_flush (r : R) :
  0 <= r -> r < ovf -> to_float64 (Finite r) = Finite (flush r).
Proof.
  intros H0 Hr. unfold flush. destruct (Rle_dec r unf) as [Hu | Hu].
  - apply to_float64_underflow; assumption.
  - apply to_float64_kept. right. rewrite Rabs_pos_eq by lra. lra.
Qed.

Lemma flush_bounds (r : R) : 0 <= r -> 0 <= flush r <= r.
Proof. intros H. unfold flush. destruct (Rle_dec r unf); lra. Qed.

Lemma flush_kept (r : R) : unf < r -> flush r = r.
Proof. intros H. unfold flush. destruct (Rle_dec r unf); [lra | reflexivity]. Qed.

(** A non-negative result stays non-negative, or overflows to +inf. *)
Lemma to_float64_nonneg (r : R) :
  0 <= r ->
  (ovf <= r /\ to_float64 (Finite r) = PosInf) \/
  (r < ovf /\ to_float64 (Finite r) = Finite (flush r)).
Proof.
  intros H0. destruct (Rle_dec ovf r) as [Hr | Hr].
  - left. split; [exact Hr | apply to_float64_overflow, Hr].
  - right. split; [lra | apply to_float64_flush; lra].
Qed.

Lemma kept_moderate (r : R) : / 1024 <= r <= 1024 -> kept r.
Proof.
  intros Hr. pose proof unf_small. pose proof ovf_large. right.
  rewrite Rabs_pos_eq by lra. lra.
Qed.

(** ** The moments, row by row *)

Section RoundedRows.

Variable rnd : num -> num.
Variables (self : obj) (link : tensor -> tensor).
Hypothesis Hlink : self !! "invlink" = Some (VFun link).

Lemma fpow_rnd_2 (x : num) :
  fpow_rnd rnd x 2 = fmul_rnd rnd x (fmul_rnd rnd x (Finite 1)).
Proof. reflexivity. Qed.

Lemma conditional_mean_rnd_rows (F : tensor) :
  conditional_mean_rnd rnd self F = Ok (map (mean_row_rnd rnd) (link F)).
Proof.
  unfold conditional_mean_rnd. rewrite (self_invlink_ok self link Hlink).
  cbn [bind]. unfold newaxis, tf_reduce_sum_rnd. rewrite map_map.
  apply bcast2_map_r. intros row _. apply bcast_stretch_r.
Qed.

Lemma conditional_variance_rnd_rows (F : tensor) :
  conditional_variance_rnd rnd self F = Ok (map (variance_row_rnd rnd) (link F)).
Proof.
  unfold conditional_variance_rnd. rewrite (self_invlink_ok self link Hlink).
  cbn [bind]. unfold tpow_rnd, scalar_op, newaxis, tf_reduce_sum_rnd.
  rewrite !map_map. set (C := link F).
  rewrite (bcast2_map_l (fsub_rnd rnd) (fun row => [row_sum_rnd rnd row])
             (fun row => map (fsub_rnd rnd (row_sum_rnd rnd row)) row) C)
    by (intros row _; apply bcast_stretch_l).
  cbn [bind].
  rewrite (bcast2_map_r (fmul_rnd rnd)
             (fun row => map (fsub_rnd rnd (row_sum_rnd rnd row)) row)
             (fun row => map (fun a => fmul_rnd rnd a
                                         (fsub_rnd rnd (row_sum_rnd rnd row) a))
                             row) C).
  2:{ intros row _. rewrite bcast_same by (rewrite length_map; reflexivity).
      rewrite zip_with_map_r. reflexivity. }
  cbn [bind]. cbn [map].
  rewrite (bcast2_map (fmul_rnd rnd)
             (fun row => [fpow_rnd rnd (row_sum_rnd rnd row) 2])
             (fun row => [fadd_rnd rnd (row_sum_rnd rnd row) (Finite 1)])
             (fun row => [fmul_rnd rnd (fpow_rnd rnd (row_sum_rnd rnd row) 2)
                                   (fadd_rnd rnd (row_sum_rnd rnd row) (Finite 1))])
             C)
    by (intros row _; rewrite bcast_stretch_r; reflexivity).
  cbn [bind].
  rewrite (bcast2_map (fdiv_rnd rnd) _ _ (variance_row_rnd rnd) C).
  - reflexivity.
  - intros row _. rewrite bcast_stretch_r. unfold variance_row_rnd.
    rewrite map_map. reflexivity.
Qed.

End RoundedRows.

(** Without rounding these are the moments of the first embedding. *)
Lemma moments_rnd_identity (self : obj) (F : tensor) :
  conditional_mean_rnd (fun x => x) self F = conditional_mean self F /\
  conditional_variance_rnd (fun x => x) self F = conditional_variance self F.
Proof. split; reflexivity. Qed.

(** ** Rows in range *)

Lemma above_unf_positive (row : list R) :
  Forall (fun a => unf < a) row -> Forall (fun a => 0 < a) row.
Proof.
  intros H. eapply Forall_impl; [exact H |]. intros a Ha.
  pose proof unf_pos. simpl. lra.
Qed.

Lemma row_sum64 (row : list R) :
  Forall (fun a => unf < a) row -> Rsum row < ovf ->
  row_sum_rnd to_float64 (of_reals row) = Finite (Rsum row).
Proof.
  unfold row_sum_rnd, of_reals, Rsum.
  induction 1 as [| a row Ha Hrow IH]; cbn [map fold_right]; intros Hs;
    [reflexivity |].
  pose proof (Rsum_nonneg row (above_unf_positive row Hrow)) as Hnn.
  unfold Rsum in Hnn. pose proof unf_pos.
  rewrite IH by lra. unfold fadd_rnd. cbn [fadd].
  apply to_float64_kept. right. rewrite Rabs_pos_eq by lra. lra.
Qed.

Lemma tf_exp64_in_range (M : list (list R)) :
  Forall (Forall (fun f => unf < exp f /\ exp f < ovf)) M ->
  tf_exp64 (of_matrix M) = of_matrix (map (map exp) M).
Proof.
  unfold tf_exp64, tf_exp_rnd, of_matrix, of_reals. intros HM.
  rewrite !map_map. apply map_ext_Forall.
  eapply Forall_impl; [exact HM |]. intros row Hrow.
  rewrite !map_map. apply map_ext_Forall.
  eapply Forall_impl; [exact Hrow |]. intros f [Hlo Hhi].
  unfold fexp_rnd. cbn [fexp]. apply to_float64_kept. right.
  rewrite Rabs_pos_eq by (pose proof unf_pos; lra). lra.
Qed.

Lemma mean_row64 (row : list R) :
  Forall (fun a => unf < a) row -> Rsum row < ovf ->
  mean_row_rnd to_float64 (of_reals row)
  = of_reals (map (fun x => flush (x / Rsum row)) row).
Proof.
  intros Hrow Hs. unfold mean_row_rnd. rewrite (row_sum64 row Hrow Hs).
  apply map_of_reals. intros x Hx.
  pose proof (above_unf_positive row Hrow) as Hpos.
  assert (Hne : row <> []) by (intros ->; destruct Hx).
  pose proof (Rsum_pos row Hne Hpos) as HS.
  pose proof (Rsum_ge_entry row x Hpos Hx) as Hle.
  assert (Hx0 : 0 < x) by (rewrite Forall_forall in Hpos; apply Hpos, list_elem_of_In, Hx).
  unfold fdiv_rnd. rewrite fdiv_finite by lra.
  assert (Hq : 0 < x / Rsum row <= 1).
  { split; [apply Rdiv_lt_0_compat; assumption |].
    apply (Rmult_le_reg_r (Rsum row)); [exact HS |].
    unfold Rdiv. rewrite Rmult_assoc, Rinv_l by lra. lra. }
  apply to_float64_flush; [lra |]. pose proof ovf_large. lra.
Qed.

Lemma mean_row64_bounds (row : list R) :
  Forall (fun a => unf < a) row ->
  Forall (fun x => 0 <= x <= 1) (map (fun x => flush (x / Rsum row)) row).
Proof.
  intros Hrow. pose proof (above_unf_positive row Hrow) as Hpos.
  pose proof (mean_row_bounds row Hpos) as (_ & Hb & _).
  rewrite Forall_map in Hb |- *. eapply Forall_impl; [exact Hb |].
  intros x [Hx0 Hx1]. simpl in *.
  pose proof (flush_bounds (x / Rsum row) ltac:(lra)). lra.
Qed.

Lemma mean_row64_sum (row : list R) :
  Forall (fun a => unf < a) row ->
  row <> [] ->
  Forall (fun a => unf < a / Rsum row) row ->
  Rsum (map (fun x => flush (x / Rsum row)) row) = 1.
Proof.
  intros Hrow Hne Hq. pose proof (above_unf_positive row Hrow) as Hpos.
  pose proof (mean_row_bounds row Hpos) as (Hsum & _ & _).
  rewrite <- (Hsum Hne). f_equal. apply map_ext_Forall.
  eapply Forall_impl; [exact Hq |]. intros x Hx. apply flush_kept, Hx.
Qed.

(** C3 (as amended).  [conditional_mean(F)] returns, row by row,
    [alpha / sum(alpha)] for [alpha = invlink(F)], in the arithmetic of the
    backend.  The exponential link gives a real [alpha] where [exp] neither
    overflows nor underflows.  For a strictly positive real [alpha] whose
    row sums do not overflow, every entry of the result lies in [[0, 1]],
    the quotient itself or 0 where the quotient underflows, and a row with
    at least one entry and no underflowing quotient sums to 1. *)
Theorem conditional_mean_float64 (self : obj) (link : tensor -> tensor) :
  self !! "invlink" = Some (VFun link) ->
  (forall F : tensor,
     conditional_mean_rnd to_float64 self F
     = Ok (map (mean_row_rnd to_float64) (link F))) /\
  (forall M : list (list R),
     Forall (Forall (fun f => unf < exp f /\ exp f < ovf)) M ->
     tf_exp64 (of_matrix M) = of_matrix (map (map exp) M)) /\
  (forall (F : tensor) (alpha : list (list R)),
     link F = of_matrix alpha ->
     Forall (fun row => Forall (fun a => unf < a) row /\ Rsum row < ovf) alpha ->
     exists m : list (list R),
       conditional_mean_rnd to_float64 self F = Ok (of_matrix m) /\
       m = map (fun row => map (fun x => flush (x / Rsum row)) row) alpha /\
       Forall (Forall (fun x => 0 <= x <= 1)) m /\
       Forall2 (fun row mrow =>
                  row <> [] ->
                  Forall (fun a => unf < a / Rsum row) row ->
                  Rsum mrow = 1) alpha m).
Proof.
  intros Hlink.
  split; [intros F; apply conditional_mean_rnd_rows, Hlink |].
  split; [exact tf_exp64_in_range |].
  intros F alpha Halpha Hrange. eexists.
  split; [| split; [reflexivity | split]].
  - rewrite (conditional_mean_rnd_rows to_float64 self link Hlink), Halpha.
    f_equal. apply map_rows_of_matrix.
    eapply Forall_impl; [exact Hrange |]. intros row [Hrow Hs].
    apply mean_row64; assumption.
  - apply Forall_map. eapply Forall_impl; [exact Hrange |]. intros row [Hrow _].
    apply mean_row64_bounds, Hrow.
  - clear Halpha. induction Hrange as [| row alpha [Hrow _] _ IH]; simpl;
      constructor; [| exact IH].
    intros Hne Hq. apply mean_row64_sum; assumption.
Qed.

Lemma exp_zero_kept : unf < exp 0 /\ exp 0 < ovf.
Proof. rewrite exp_0. pose proof unf_small. pose proof ovf_large. lra. Qed.

Lemma tf_exp64_zero_pair : tf_exp64 (of_matrix [[0; 0]]) = of_matrix [[1; 1]].
Proof.
  rewrite tf_exp64_in_range by (repeat constructor; apply exp_zero_kept).
  simpl. rewrite exp_0. reflexivity.
Qed.

Lemma conditional_mean_float64_witness :
  exists m : list (list R),
    conditional_mean_rnd to_float64 dirichlet64 (of_matrix [[0; 0]])
      = Ok (of_matrix m) /\
    Forall (Forall (fun x => 0 <= x <= 1)) m /\
    Forall (fun mrow => Rsum mrow = 1) m.
Proof.
  pose proof unf_small as Hu. pose proof ovf_large as Ho.
  destruct (conditional_mean_float64 dirichlet64 tf_exp64
              (lookup_singleton_eq _ _)) as (_ & _ & H).
  destruct (H (of_matrix [[0; 0]]) [[1; 1]] tf_exp64_zero_pair)
    as (m & Hm & -> & Hb & Hs).
  - repeat constructor; unfold Rsum; simpl; lra.
  - eexists. split; [exact Hm |]. split; [exact Hb |].
    inversion Hs as [| ? ? ? ? Hrow _]; subst. constructor; [| constructor].
    apply Hrow; [discriminate |].
    repeat constructor; unfold Rsum; simpl; lra.
Defined.

(** ** Where [exp] leaves the range *)

Lemma exp_nat_mult (x : R) (n : nat) : exp (INR n * x) = exp x ^ n.
Proof.
  induction n as [| n IH].
  - simpl. rewrite Rmult_0_l. apply exp_0.
  - rewrite S_INR, Rmult_plus_distr_r, Rmult_1_l, exp_plus, IH. simpl. ring.
Qed.

Lemma exp_1_lower : 9 / 4 < exp 1.
Proof.
  replace 1 with (1 / 2 + 1 / 2) by lra. rewrite exp_plus.
  pose proof (exp_ineq1 (1 / 2) ltac:(lra)). nra.
Qed.

Lemma exp_1000_lower : 2 ^ 1136 <= exp 1000.
Proof.
  replace 1000 with (INR 1000 * 1)
    by (rewrite INR_IZR_INZ; change (Z.of_nat 1000) with 1000%Z; lra).
  rewrite exp_nat_mult.
  apply Rle_trans with ((9 / 4) ^ 1000).
  - replace (2 ^ 1136) with ((2 ^ 8) ^ 142 * 1)
      by (rewrite <- pow_mult, Rmult_1_r; reflexivity).
    replace ((9 / 4) ^ 1000) with (((9 / 4) ^ 7) ^ 142 * (9 / 4) ^ 6)
      by (rewrite <- pow_mult, <- pow_add; reflexivity).
    apply Rmult_le_compat.
    + apply pow_le. lra.
    + lra.
    + apply pow_incr. lra.
    + apply pow_R1_Rle. lra.
  - apply pow_incr. pose proof exp_1_lower. lra.
Qed.

Lemma exp_1000_overflows : ovf <= exp 1000.
Proof.
  pose proof exp_1000_lower. pose proof ovf_lt_pow.
  pose proof (pow2_le 1024 1136 ltac:(lia)). lra.
Qed.

Lemma exp_minus_1000_underflows : 0 <= exp (- 1000) /\ exp (- 1000) <= unf.
Proof.
  split; [left; apply exp_pos |].
  replace (- 1000) with (- (1000)) by lra.
  rewrite exp_Ropp. unfold unf. apply Rinv_le_contravar; [apply pow2_pos |].
  pose proof exp_1000_lower. pose proof (pow2_le 1075 1136 ltac:(lia)). lra.
Qed.

Lemma to_float64_one_plus_zero : to_float64 (Finite (1 + 0)) = Finite 1.
Proof.
  replace (1 + 0) with 1 by lra. apply to_float64_kept, kept_moderate. lra.
Qed.

Lemma tf_exp64_overflow_pair :
  tf_exp64 (of_matrix [[1000; 0]]) = [[PosInf; Finite 1]].
Proof.
  unfold tf_exp64, tf_exp_rnd, fexp_rnd. cbn [of_matrix of_reals map fexp].
  rewrite (to_float64_overflow _ exp_1000_overflows), exp_0.
  rewrite to_float64_kept by (apply kept_moderate; lra). reflexivity.
Qed.

Lemma tf_exp64_underflow_pair :
  tf_exp64 (of_matrix [[0; -1000]]) = [[Finite 1; Finite 0]].
Proof.
  unfold tf_exp64, tf_exp_rnd, fexp_rnd. cbn [of_matrix of_reals map fexp].
  destruct exp_minus_1000_underflows as [H0 Hu].
  rewrite (to_float64_underflow _ H0 Hu), exp_0.
  rewrite to_float64_kept by (apply kept_moderate; lra). reflexivity.
Qed.

Lemma mean_row64_overflow :
  mean_row_rnd to_float64 [PosInf; Finite 1] = [NaN; Finite 0].
Proof.
  unfold mean_row_rnd, row_sum_rnd, fadd_rnd, fdiv_rnd. cbn [fold_right fadd].
  rewrite to_float64_one_plus_zero. cbn [fadd].
  change (to_float64 PosInf) with PosInf. cbn [map fdiv].
  change (to_float64 NaN) with NaN.
  rewrite to_float64_kept by (left; reflexivity). reflexivity.
Qed.

Lemma variance_row64_overflow :
  variance_row_rnd to_float64 [PosInf; Finite 1] = [NaN; NaN].
Proof.
  unfold variance_row_rnd, variance_entry_rnd, row_sum_rnd, fpow_rnd, fadd_rnd,
    fsub_rnd, fmul_rnd, fdiv_rnd.
  cbn [fold_right fadd]. rewrite to_float64_one_plus_zero.
  cbn [fadd]. change (to_float64 PosInf) with PosInf.
  cbn [fsub fopp fadd map fmul]. rewrite (signed_inf_pos 1) by lra.
  change (to_float64 PosInf) with PosInf. change (to_float64 NaN) with NaN.
  cbn [fmul]. change (to_float64 PosInf) with PosInf. change (to_float64 NaN) with NaN.
  cbn [fmul fdiv]. reflexivity.
Qed.

Lemma mean_row64_single : mean_row_rnd to_float64 [Finite 1] = [Finite 1].
Proof.
  change [Finite 1] with (of_reals [1]).
  rewrite mean_row64.
  - unfold Rsum. simpl. rewrite flush_kept by (pose proof unf_small; lra).
    unfold of_reals. simpl. entrywise. field.
  - repeat constructor. pose proof unf_small. lra.
  - unfold Rsum. simpl. pose proof ovf_large. lra.
Qed.

(** C3, the claim as stated fails.  With one category, [F = [[0]]] gives the
    strictly positive [alpha = [[1]]] and the mean [[1]], not inside (0, 1).
    And at [F = [[1000, 0]]] the exponential overflows: [alpha] is
    [[+inf, 1]], and the mean [[NaN, 0]] neither sums to 1 nor lies in
    (0, 1). *)
Lemma conditional_mean_outside_open_interval :
  tf_exp64 (of_matrix [[0]]) = of_matrix [[1]] /\
  conditional_mean_rnd to_float64 dirichlet64 (of_matrix [[0]])
    = Ok (of_matrix [[1]]) /\
  ~ (0 < 1 < 1) /\
  tf_exp64 (of_matrix [[1000; 0]]) = [[PosInf; Finite 1]] /\
  conditional_mean_rnd to_float64 dirichlet64 (of_matrix [[1000; 0]])
    = Ok [[NaN; Finite 0]].
Proof.
  assert (Hone : tf_exp64 (of_matrix [[0]]) = of_matrix [[1]]).
  { rewrite tf_exp64_in_range by (repeat constructor; apply exp_zero_kept).
    simpl. rewrite exp_0. reflexivity. }
  split; [exact Hone |]. split; [| split; [lra | split]].
  - rewrite (conditional_mean_rnd_rows to_float64 dirichlet64 tf_exp64
               (lookup_singleton_eq _ _)), Hone.
    cbn [of_matrix of_reals map]. rewrite mean_row64_single. reflexivity.
  - exact tf_exp64_overflow_pair.
  - rewrite (conditional_mean_rnd_rows to_float64 dirichlet64 tf_exp64
               (lookup_singleton_eq _ _)), tf_exp64_overflow_pair.
    cbn [map]. rewrite mean_row64_overflow. reflexivity.
Qed.

(** ** The arithmetic of non-negative results *)

Lemma fadd64_nonneg (a b : R) :
  0 <= a + b ->
  (ovf <= a + b /\ fadd_rnd to_float64 (Finite a) (Finite b) = PosInf) \/
  (a + b < ovf /\ fadd_rnd to_float64 (Finite a) (Finite b) = Finite (flush (a + b))).
Proof. intros H. apply (to_float64_nonneg (a + b) H). Qed.

Lemma fsub64_nonneg (a b : R) :
  0 <= a - b -> a - b < ovf ->
  fsub_rnd to_float64 (Finite a) (Finite b) = Finite (flush (a - b)).
Proof. intros H0 H1. apply (to_float64_flush (a - b) H0 H1). Qed.

Lemma fmul64_nonneg (a b : R) :
  0 <= a * b ->
  (ovf <= a * b /\ fmul_rnd to_float64 (Finite a) (Finite b) = PosInf) \/
  (a * b < ovf /\ fmul_rnd to_float64 (Finite a) (Finite b) = Finite (flush (a * b))).
Proof. intros H. apply (to_float64_nonneg (a * b) H). Qed.

Lemma fdiv64_nonneg (a b : R) :
  b <> 0 -> 0 <= a / b -> a / b < ovf ->
  fdiv_rnd to_float64 (Finite a) (Finite b) = Finite (flush (a / b)).
Proof.
  intros Hb H0 H1. unfold fdiv_rnd. rewrite fdiv_finite by exact Hb.
  apply to_float64_flush; assumption.
Qed.

Lemma flush_zero : flush 0 = 0.
Proof. unfold flush. destruct (Rle_dec 0 unf); reflexivity. Qed.

Lemma flush_mono (r s : R) : r <= s -> flush r <= flush s.
Proof.
  intros H. pose proof unf_pos. unfold flush.
  destruct (Rle_dec r unf), (Rle_dec s unf); lra.
Qed.

Lemma variance_ratio_below_quarter (n x S : R) :
  0 < x -> x <= S -> 0 <= n <= x * (S - x) ->
  0 <= n / (S * S * (S + 1)) < 1 / 4.
Proof.
  intros Hx HS [Hn0 Hn].
  assert (Hden : 0 < S * S * (S + 1)) by (apply Rmult_lt_0_compat; nra).
  pose proof (variance_entry_below_quarter x S Hx HS) as Hq.
  split.
  - apply Rmult_le_pos; [exact Hn0 |]. left. apply Rinv_0_lt_compat, Hden.
  - apply Rle_lt_trans with (x * (S - x) / (S * S * (S + 1))); [| exact Hq].
    unfold Rdiv. apply Rmult_le_compat_r; [| exact Hn].
    left. apply Rinv_0_lt_compat, Hden.
Qed.

(** ** One entry of the variance *)

Lemma fmul64_one (S : R) :
  unf < S -> S < ovf -> fmul_rnd to_float64 (Finite S) (Finite 1) = Finite S.
Proof.
  intros Hlo Hhi. pose proof unf_pos. unfold fmul_rnd. cbn [fmul].
  replace (S * 1) with S by lra. apply to_float64_kept. right.
  rewrite Rabs_pos_eq by lra. lra.
Qed.

Lemma variance_entry64 (x S : R) :
  unf < x -> x <= S -> S < ovf ->
  (variance_entry_rnd to_float64 (Finite S) (Finite x) = NaN \/
   exists r : R,
     variance_entry_rnd to_float64 (Finite S) (Finite x) = Finite r /\
     0 <= r < 1 / 4) /\
  (unf < S * S -> S * S * (S + 1) < ovf ->
   exists r : R,
     variance_entry_rnd to_float64 (Finite S) (Finite x) = Finite r /\
     0 <= r < 1 / 4).
Proof.
  intros Hx HS Hovf. pose proof unf_pos as Hu. pose proof ovf_large as Ho.
  unfold variance_entry_rnd. rewrite fpow_rnd_2.
  rewrite (fsub64_nonneg S x) by lra.
  pose proof (flush_bounds (S - x) ltac:(lra)) as He.
  set (e := flush (S - x)) in *.
  rewrite (fmul64_one S) by lra.
  assert (Hxe : 0 <= x * e <= x * (S - x)) by nra.
  assert (Hquarter : 4 * (x * (S - x)) <= S * S)
    by (pose proof (Rle_0_sqr (S - 2 * x)) as Hsq; unfold Rsqr in Hsq; lra).
  destruct (fmul64_nonneg S S ltac:(nra)) as [[Hq ->] | [Hq ->]].
  - (* the square overflows *)
    assert (Hden : fmul_rnd to_float64 PosInf
                     (fadd_rnd to_float64 (Finite S) (Finite 1)) = PosInf).
    { destruct (fadd64_nonneg S 1 ltac:(lra)) as [[_ ->] | [_ ->]];
        [reflexivity |].
      unfold fmul_rnd. cbn [fmul]. rewrite flush_kept by lra.
      rewrite signed_inf_pos by lra. reflexivity. }
    rewrite Hden. split; [| intros _ Hrange; nra].
    destruct (fmul64_nonneg x e (proj1 Hxe)) as [[_ ->] | [_ ->]].
    + left. reflexivity.
    + right. exists 0. split; [| lra].
      unfold fdiv_rnd. cbn [fdiv]. apply to_float64_kept. left. reflexivity.
  - (* the square stays below the overflow threshold *)
    destruct (fmul64_nonneg x e (proj1 Hxe)) as [[Hn _] | [_ ->]]; [lra |].
    destruct (fadd64_nonneg S 1 ltac:(lra)) as [[Hp _] | [_ ->]]; [nra |].
    rewrite (flush_kept (S + 1)) by lra.
    pose proof (flush_bounds (x * e) (proj1 Hxe)) as Hnv.
    set (nv := flush (x * e)) in *.
    destruct (Rle_dec (S * S) unf) as [Hsmall | Hbig].
    + (* the square underflows *)
      split; [| intros Hrange _; lra]. left.
      assert (Hsq0 : flush (S * S) = 0)
        by (unfold flush; destruct (Rle_dec (S * S) unf); [reflexivity | lra]).
      assert (Hnv0 : nv = 0).
      { unfold nv, flush. destruct (Rle_dec (x * e) unf); [reflexivity | lra]. }
      rewrite Hsq0, Hnv0. unfold fmul_rnd, fdiv_rnd. cbn [fmul].
      replace (0 * (S + 1)) with 0 by lra.
      rewrite (to_float64_kept 0) by (left; reflexivity).
      rewrite fdiv_by_zero by reflexivity. rewrite signed_inf_zero. reflexivity.
    + rewrite (flush_kept (S * S)) by lra.
      assert (Hratio : forall n, 0 <= n <= x * (S - x) ->
                0 <= n / (S * S * (S + 1)) < 1 / 4)
        by (intros n Hn; apply (variance_ratio_below_quarter n x S); lra).
      destruct (fmul64_nonneg (S * S) (S + 1) ltac:(nra)) as [[Hd ->] | [Hd ->]].
      * split; [| intros _ Hrange; lra].
        right. exists 0. split; [| lra].
        unfold fdiv_rnd. cbn [fdiv]. apply to_float64_kept. left. reflexivity.
      * rewrite (flush_kept (S * S * (S + 1))) by nra.
        assert (Hfin : exists r : R,
                  fdiv_rnd to_float64 (Finite nv) (Finite (S * S * (S + 1)))
                  = Finite r /\ 0 <= r < 1 / 4).
        { pose proof (Hratio nv ltac:(lra)) as Hr.
          exists (flush (nv / (S * S * (S + 1)))). split.
          - apply fdiv64_nonneg; [nra | lra | lra].
          - pose proof (flush_bounds (nv / (S * S * (S + 1))) ltac:(lra)). lra. }
        split; [right; exact Hfin | intros _ _; exact Hfin].
Qed.

(** ** Results that stay in range are exact *)

Lemma fadd64_kept (a b : R) :
  kept (a + b) -> fadd_rnd to_float64 (Finite a) (Finite b) = Finite (a + b).
Proof. intros Hk. unfold fadd_rnd. cbn [fadd]. apply to_float64_kept, Hk. Qed.

Lemma fsub64_kept (a b : R) :
  kept (a - b) -> fsub_rnd to_float64 (Finite a) (Finite b) = Finite (a - b).
Proof.
  intros Hk. unfold fsub_rnd. cbn [fsub fopp fadd].
  replace (a + - b) with (a - b) by lra. apply to_float64_kept, Hk.
Qed.

Lemma fmul64_kept (a b : R) :
  kept (a * b) -> fmul_rnd to_float64 (Finite a) (Finite b) = Finite (a * b).
Proof. intros Hk. unfold fmul_rnd. cbn [fmul]. apply to_float64_kept, Hk. Qed.

Lemma fdiv64_kept (a b : R) :
  b <> 0 -> kept (a / b) ->
  fdiv_rnd to_float64 (Finite a) (Finite b) = Finite (a / b).
Proof.
  intros Hb Hk. unfold fdiv_rnd. rewrite fdiv_finite by exact Hb.
  apply to_float64_kept, Hk.
Qed.

Lemma variance_entry64_exact (x S : R) :
  kept S -> kept (S - x) -> kept (x * (S - x)) -> kept (S * S) ->
  kept (S + 1) -> kept (S * S * (S + 1)) -> S * S * (S + 1) <> 0 ->
  kept (x * (S - x) / (S * S * (S + 1))) ->
  variance_entry_rnd to_float64 (Finite S) (Finite x)
  = Finite (x * (S - x) / (S * S * (S + 1))).
Proof.
  intros HS Hd Hn Hq Hp Hden Hne Hv.
  unfold variance_entry_rnd. rewrite fpow_rnd_2.
  rewrite (fsub64_kept S x Hd), (fmul64_kept x (S - x) Hn).
  rewrite (fmul64_kept S 1) by (replace (S * 1) with S by lra; exact HS).
  replace (S * 1) with S by lra.
  rewrite (fmul64_kept S S Hq), (fadd64_kept S 1 Hp).
  rewrite (fmul64_kept (S * S) (S + 1) Hden).
  apply fdiv64_kept; assumption.
Qed.

Lemma tf_exp64_ln2_pair :
  tf_exp64 (of_matrix [[ln 2; ln 2]]) = of_matrix [[2; 2]].
Proof.
  pose proof unf_small. pose proof ovf_large.
  rewrite tf_exp64_in_range.
  - cbn [map]. rewrite exp_ln by lra. reflexivity.
  - repeat constructor; rewrite exp_ln by lra; lra.
Qed.

Lemma variance_row64_two_two :
  variance_row_rnd to_float64 (of_reals [2; 2]) = of_reals [1 / 20; 1 / 20].
Proof.
  pose proof unf_small. pose proof ovf_large.
  unfold variance_row_rnd. rewrite row_sum64;
    [| repeat constructor; lra | unfold Rsum; cbn [fold_right]; lra].
  replace (Rsum [2; 2]) with 4 by (unfold Rsum; cbn [fold_right]; lra).
  cbn [of_reals map].
  rewrite (variance_entry64_exact 2 4);
    try (apply kept_moderate; lra); [| lra].
  replace (2 * (4 - 2) / (4 * 4 * (4 + 1))) with (1 / 20) by lra.
  reflexivity.
Qed.

(** ** The variance of rows in range *)

Lemma variance_row64 (row : list R) :
  Forall (fun a => unf < a) row -> Rsum row < ovf ->
  Forall (fun v => v = NaN \/ exists r : R, v = Finite r /\ 0 <= r < 1 / 4)
         (variance_row_rnd to_float64 (of_reals row)).
Proof.
  intros Hrow Hsum. unfold variance_row_rnd. rewrite (row_sum64 row Hrow Hsum).
  unfold of_reals. rewrite map_map. apply Forall_map, Forall_forall.
  intros x Hx. apply list_elem_of_In in Hx.
  pose proof (Rsum_ge_entry row x (above_unf_positive row Hrow) Hx) as Hle.
  assert (Hxu : unf < x)
    by (rewrite Forall_forall in Hrow; apply Hrow, list_elem_of_In, Hx).
  apply (variance_entry64 x (Rsum row) Hxu Hle Hsum).
Qed.

Lemma variance_entries64_finite (S : R) (row : list R) :
  unf < S * S -> S * S * (S + 1) < ovf -> S < ovf ->
  Forall (fun x => unf < x /\ x <= S) row ->
  exists v : list R,
    map (variance_entry_rnd to_float64 (Finite S)) (of_reals row) = of_reals v /\
    Forall (fun r => 0 <= r < 1 / 4) v.
Proof.
  intros HloS HhiS HsumS. induction 1 as [| x row' [Hx Hle] _ IH].
  - exists []. split; [reflexivity | constructor].
  - destruct IH as (v & Hv & Hb).
    destruct (variance_entry64 x S Hx Hle HsumS) as [_ Hfin].
    destruct (Hfin HloS HhiS) as (r & Hr & Hrb).
    exists (r :: v). split; [| constructor; assumption].
    cbn [of_reals map]. rewrite Hr. f_equal. exact Hv.
Qed.

Lemma variance_row64_finite (row : list R) :
  Forall (fun a => unf < a) row ->
  unf < Rsum row * Rsum row ->
  Rsum row * Rsum row * (Rsum row + 1) < ovf ->
  exists v : list R,
    variance_row_rnd to_float64 (of_reals row) = of_reals v /\
    Forall (fun r => 0 <= r < 1 / 4) v.
Proof.
  intros Hrow Hlo Hhi. pose proof unf_pos as Hu. pose proof ovf_large as Ho.
  pose proof (Rsum_nonneg row (above_unf_positive row Hrow)) as Hs0.
  assert (Hsum : Rsum row < ovf).
  { destruct (Rle_dec 1 (Rsum row)) as [H1 | H1]; [| lra].
    assert (1 <= Rsum row * Rsum row) by nra. nra. }
  unfold variance_row_rnd. rewrite (row_sum64 row Hrow Hsum).
  apply variance_entries64_finite; try assumption.
  apply Forall_forall. intros x Hx. apply list_elem_of_In in Hx. split.
  - rewrite Forall_forall in Hrow. apply Hrow, list_elem_of_In, Hx.
  - apply Rsum_ge_entry; [apply above_unf_positive, Hrow | exact Hx].
Qed.

Lemma kept_moderate_neg (r : R) : - (1024) <= r <= - / 1024 -> kept r.
Proof.
  intros Hr. pose proof unf_small. pose proof ovf_large. right.
  rewrite Rabs_left by lra. lra.
Qed.

Lemma variance_row64_negative :
  variance_row_rnd to_float64 (of_reals [- (1); 3])
  = of_reals [- (1 / 4); - (1 / 4)].
Proof.
  unfold variance_row_rnd.
  assert (Hsum : row_sum_rnd to_float64 (of_reals [- (1); 3]) = Finite 2).
  { unfold row_sum_rnd. cbn [of_reals map fold_right].
    rewrite (fadd64_kept 3 0) by (apply kept_moderate; lra).
    rewrite (fadd64_kept (- (1)) (3 + 0)) by (apply kept_moderate; lra).
    f_equal. lra. }
  rewrite Hsum. cbn [of_reals map].
  rewrite (variance_entry64_exact (- (1)) 2);
    try (apply kept_moderate; lra); try (apply kept_moderate_neg; lra); [| lra].
  rewrite (variance_entry64_exact 3 2);
    try (apply kept_moderate; lra); try (apply kept_moderate_neg; lra); [| lra].
  replace (- (1) * (2 - - (1)) / (2 * 2 * (2 + 1))) with (- (1 / 4)) by lra.
  replace (3 * (2 - 3) / (2 * 2 * (2 + 1))) with (- (1 / 4)) by lra.
  reflexivity.
Qed.

(** C4 (as amended).  [conditional_variance] computes, row by row of the
    concentration [alpha = invlink(F)] with [S] the sum of the row,
    [alpha_k (S - alpha_k) / (S^2 (S + 1))], every operation rounded to
    float64.  When the concentration is real with every entry above the
    underflow threshold and every row sum below the overflow threshold,
    every returned entry is NaN or a non-negative real number; when
    moreover [S^2] does not underflow and [S^2 (S + 1)] does not overflow,
    every returned entry is a non-negative real number.  With the
    exponential link, [F = [[log 2, log 2]]] gives [[1/20, 1/20]]. *)
Theorem conditional_variance_float64 (self : obj) (link : tensor -> tensor) :
  self !! "invlink" = Some (VFun link) ->
  (forall F : tensor,
     conditional_variance_rnd to_float64 self F
     = Ok (map (fun alpha : vector =>
                  let S := row_sum_rnd to_float64 alpha in
                  map (fun a =>
                         fdiv_rnd to_float64
                           (fmul_rnd to_float64 a (fsub_rnd to_float64 S a))
                           (fmul_rnd to_float64 (fpow_rnd to_float64 S 2)
                              (fadd_rnd to_float64 S (Finite 1)))) alpha)
               (link F))) /\
  (forall (F : tensor) (alpha : list (list R)),
     link F = of_matrix alpha ->
     Forall (fun row => Forall (fun a => unf < a) row /\ Rsum row < ovf) alpha ->
     exists V : tensor,
       conditional_variance_rnd to_float64 self F = Ok V /\
       Forall (Forall (fun v => v = NaN \/
                                exists r : R, v = Finite r /\ 0 <= r)) V) /\
  (forall (F : tensor) (alpha : list (list R)),
     link F = of_matrix alpha ->
     Forall (fun row => Forall (fun a => unf < a) row /\
                        unf < Rsum row * Rsum row /\
                        Rsum row * Rsum row * (Rsum row + 1) < ovf) alpha ->
     exists v : list (list R),
       conditional_variance_rnd to_float64 self F = Ok (of_matrix v) /\
       Forall (Forall (fun r => 0 <= r)) v) /\
  (link = tf_exp64 ->
   conditional_variance_rnd to_float64 self (of_matrix [[ln 2; ln 2]])
   = Ok (of_matrix [[1 / 20; 1 / 20]])).
Proof.
  intros Hlink. split; [| split; [| split]].
  - intros F. apply conditional_variance_rnd_rows, Hlink.
  - intros F alpha Halpha Hrange. eexists.
    split; [apply conditional_variance_rnd_rows, Hlink |].
    rewrite Halpha. unfold of_matrix. rewrite map_map. apply Forall_map.
    eapply Forall_impl; [exact Hrange |]. intros row [Hrow Hsum].
    eapply Forall_impl; [apply variance_row64; assumption |].
    intros v [Hv | (r & Hv & Hr)]; [left; exact Hv | right].
    exists r. split; [exact Hv | lra].
  - intros F alpha Halpha Hrange.
    rewrite (conditional_variance_rnd_rows to_float64 self link Hlink), Halpha.
    clear Halpha. induction Hrange as [| row alpha' (Hrow & Hlo & Hhi) _ IH].
    + exists []. split; [reflexivity | constructor].
    + destruct IH as (v & Hv & Hb).
      destruct (variance_row64_finite row Hrow Hlo Hhi) as (vr & Hvr & Hbr).
      exists (vr :: v). split.
      * injection Hv as Hv. cbn [of_matrix map]. rewrite Hvr. do 2 f_equal.
        exact Hv.
      * constructor; [| exact Hb].
        eapply Forall_impl; [exact Hbr |]. intros r Hr. simpl in Hr. lra.
  - intros ->.
    rewrite (conditional_variance_rnd_rows to_float64 self tf_exp64 Hlink).
    rewrite tf_exp64_ln2_pair. cbn [of_matrix map].
    rewrite variance_row64_two_two. reflexivity.
Qed.

Lemma conditional_variance_float64_witness :
  conditional_variance_rnd to_float64 dirichlet64 (of_matrix [[ln 2; ln 2]])
  = Ok (of_matrix [[1 / 20; 1 / 20]]).
Proof.
  destruct (conditional_variance_float64 dirichlet64 tf_exp64
              (lookup_singleton_eq _ _)) as (_ & _ & _ & H).
  apply H. reflexivity.
Defined.

(** C4, the claim as stated fails.  At [F = [[1000, 0]]] the exponential
    overflows: the concentration is [[+inf, 1]] and both entries of the
    variance are NaN, which is not a non-negative number.  And a link that
    returns the concentration [[-1, 3]] gives the variance
    [[-1/4, -1/4]]. *)
Lemma conditional_variance_not_nonnegative :
  tf_exp64 (of_matrix [[1000; 0]]) = [[PosInf; Finite 1]] /\
  conditional_variance_rnd to_float64 dirichlet64 (of_matrix [[1000; 0]])
    = Ok [[NaN; NaN]] /\
  conditional_variance_rnd to_float64 {["invlink" := VFun (fun F => F)]}
    (of_matrix [[- (1); 3]])
    = Ok (of_matrix [[- (1 / 4); - (1 / 4)]]) /\
  - (1 / 4) < 0.
Proof.
  split; [exact tf_exp64_overflow_pair |]. split; [| split; [| lra]].
  - rewrite (conditional_variance_rnd_rows to_float64 dirichlet64 tf_exp64
               (lookup_singleton_eq _ _)), tf_exp64_overflow_pair.
    cbn [map]. rewrite variance_row64_overflow. reflexivity.
  - rewrite (conditional_variance_rnd_rows to_float64 _ (fun F => F)
               (lookup_singleton_eq _ _)).
    cbn [of_matrix map]. rewrite variance_row64_negative. reflexivity.
Qed.

(** ** Concentrations in a box

    With every entry of the concentration at least [l] and every row sum at
    most [h], where [l^2 / (h^2 (h + 1))] is above the underflow threshold
    and [h^2 (h + 1)] below the overflow threshold, no intermediate result
    of the two moments leaves the range. *)

Lemma of_matrix_cons (row : list R) (M : list (list R)) :
  of_matrix (row :: M) = of_reals row :: of_matrix M.
Proof. reflexivity. Qed.





Section Box.

Variables l h : R.
Hypothesis Hl : 0 < l <= 1.
Hypothesis Hh : 1 <= h.
Hypothesis Hlo : unf < l * l / (h * h * (h + 1)).
Hypothesis Hhi : h * h * (h + 1) < ovf.








End Box.





(** ** Shifting the latent values in float64 *)

Lemma mean_row64_shift (c : R) (row : list R) :
  Forall (fun f => (unf < exp f /\ exp f < ovf) /\
                   (unf < exp (f + c) /\ exp (f + c) < ovf)) row ->
  Rsum (map exp row) < ovf ->
  Rsum (map (fun f => exp (f + c)) row) < ovf ->
  mean_row_rnd to_float64 (of_reals (map exp (map (fun f => f + c) row)))
  = mean_row_rnd to_float64 (of_reals (map exp row)).
Proof.
  intros Hrange Hsum Hsumc.
  assert (Hrow : Forall (fun a => unf < a) (map exp row)).
  { apply Forall_map. eapply Forall_impl; [exact Hrange |].
    intros f Hf. simpl. apply Hf. }
  assert (Hrowc : Forall (fun a => unf < a) (map exp (map (fun f => f + c) row))).
  { rewrite map_map. apply Forall_map. eapply Forall_impl; [exact Hrange |].
    intros f Hf. simpl. apply Hf. }
  rewrite (mean_row64 _ Hrowc) by (rewrite map_map; exact Hsumc).
  rewrite (mean_row64 _ Hrow Hsum). f_equal.
  rewrite exp_shift_row, Rsum_scale_mul, map_map.
  apply map_ext_in. intros x Hx. f_equal.
  pose proof (exp_pos c) as Hc.
  assert (Hne : map exp row <> []) by (intros Hnil; rewrite Hnil in Hx; destruct Hx).
  pose proof (Rsum_pos _ Hne (above_unf_positive _ Hrow)). field. lra.
Qed.

Lemma conditional_mean64_shift (self : obj) (M : list (list R)) (c : R) :
  self !! "invlink" = Some (VFun tf_exp64) ->
  Forall (Forall (fun f => (unf < exp f /\ exp f < ovf) /\
                           (unf < exp (f + c) /\ exp (f + c) < ovf))) M ->
  Forall (fun row => Rsum (map exp row) < ovf /\
                     Rsum (map (fun f => exp (f + c)) row) < ovf) M ->
  conditional_mean_rnd to_float64 self (scalar_op fadd (of_matrix M) (Finite c))
  = conditional_mean_rnd to_float64 self (of_matrix M).
Proof.
  intros Hlink Hrange Hsums. rewrite scalar_add_of_matrix.
  rewrite !(conditional_mean_rnd_rows to_float64 self tf_exp64 Hlink).
  rewrite (tf_exp64_in_range M).
  2:{ eapply Forall_impl; [exact Hrange |]. intros row Hrow.
      eapply Forall_impl; [exact Hrow |]. intros f Hf. simpl. apply Hf. }
  rewrite (tf_exp64_in_range (map (map (fun f => f + c)) M)).
  2:{ apply Forall_map. eapply Forall_impl; [exact Hrange |]. intros row Hrow.
      simpl. apply Forall_map. eapply Forall_impl; [exact Hrow |].
      intros f Hf. simpl. apply Hf. }
  f_equal. unfold of_matrix. rewrite !map_map.
  apply map_ext_Forall.
  rewrite Forall_forall in Hrange. rewrite Forall_forall in Hsums.
  apply Forall_forall. intros row Hrow.
  destruct (Hsums row Hrow) as [Hs Hsc].
  apply mean_row64_shift; [apply Hrange, Hrow | exact Hs | exact Hsc].
Qed.

Lemma tf_exp64_shift_zero_pair :
  tf_exp64 (scalar_op fadd (of_matrix [[0; 0]]) (Finite (ln 2)))
  = of_matrix [[2; 2]].
Proof.
  pose proof unf_small. pose proof ovf_large.
  rewrite scalar_add_of_matrix. cbn [map]. rewrite Rplus_0_l.
  apply tf_exp64_ln2_pair.
Qed.

Lemma variance_row64_one_one :
  variance_row_rnd to_float64 (of_reals [1; 1]) = of_reals [1 / 12; 1 / 12].
Proof.
  pose proof unf_small. pose proof ovf_large.
  unfold variance_row_rnd. rewrite row_sum64;
    [| repeat constructor; lra | unfold Rsum; cbn [fold_right]; lra].
  replace (Rsum [1; 1]) with 2 by (unfold Rsum; cbn [fold_right]; lra).
  cbn [of_reals map].
  rewrite (variance_entry64_exact 1 2);
    try (apply kept_moderate; lra); [| lra].
  replace (1 * (2 - 1) / (2 * 2 * (2 + 1))) with (1 / 12) by lra.
  reflexivity.
Qed.

Lemma mean_row64_one_zero :
  mean_row_rnd to_float64 [Finite 1; Finite 0] = [Finite 1; Finite 0].
Proof.
  unfold mean_row_rnd, row_sum_rnd. cbn [fold_right].
  rewrite (fadd64_kept 0 0) by (left; lra).
  rewrite (fadd64_kept 1 (0 + 0)) by (apply kept_moderate; lra).
  cbn [map].
  rewrite (fdiv64_kept 1 (1 + (0 + 0))) by (try apply kept_moderate; lra).
  rewrite (fdiv64_kept 0 (1 + (0 + 0))) by (try left; lra).
  f_equal; [f_equal; lra | f_equal; f_equal; lra].
Qed.

(** C10 (as amended).  Under the exponential link the conditional mean does
    not change when a constant [c] is added to every entry of a real [F],
    as long as every [exp(f)] and [exp(f + c)] and every row sum of them
    stays inside the range of float64.  The conditional variance and the
    log-density do change: at [F = [[0, 0]]], [c = log 2] the variance goes
    from 1/12 to 1/20 and the log-density at [Y = [[1/2, 1/2]]] from 0 to
    [log (3/2)]. *)
Theorem conditional_mean_shift_float64 (Gamma : R -> R) (self : obj) :
  self !! "invlink" = Some (VFun tf_exp64) ->
  Gamma 1 = 1 ->
  (forall x : R, 0 < x -> Gamma (x + 1) = x * Gamma x) ->
  (forall (M : list (list R)) (c : R),
     Forall (Forall (fun f => (unf < exp f /\ exp f < ovf) /\
                              (unf < exp (f + c) /\ exp (f + c) < ovf))) M ->
     Forall (fun row => Rsum (map exp row) < ovf /\
                        Rsum (map (fun f => exp (f + c)) row) < ovf) M ->
     conditional_mean_rnd to_float64 self
       (scalar_op fadd (of_matrix M) (Finite c))
     = conditional_mean_rnd to_float64 self (of_matrix M)) /\
  conditional_variance_rnd to_float64 self (of_matrix [[0; 0]])
    = Ok (of_matrix [[1 / 12; 1 / 12]]) /\
  conditional_variance_rnd to_float64 self
    (scalar_op fadd (of_matrix [[0; 0]]) (Finite (ln 2)))
    = Ok (of_matrix [[1 / 20; 1 / 20]]) /\
  log_prob Gamma self (of_matrix [[0; 0]]) (of_matrix [[1 / 2; 1 / 2]])
    = Ok [Finite 0] /\
  log_prob Gamma self (scalar_op fadd (of_matrix [[0; 0]]) (Finite (ln 2)))
      (of_matrix [[1 / 2; 1 / 2]])
    = Ok [Finite (ln (3 / 2))] /\
  ln (3 / 2) <> 0.
Proof.
  intros Hlink Gamma_1 Gamma_rec.
  split; [intros M c; apply conditional_mean64_shift, Hlink |].
  split; [| split; [| split; [| split]]].
  - rewrite (conditional_variance_rnd_rows to_float64 self tf_exp64 Hlink).
    rewrite tf_exp64_zero_pair. cbn [of_matrix map].
    rewrite variance_row64_one_one. reflexivity.
  - rewrite (conditional_variance_rnd_rows to_float64 self tf_exp64 Hlink).
    rewrite tf_exp64_shift_zero_pair. cbn [of_matrix map].
    rewrite variance_row64_two_two. reflexivity.
  - rewrite (log_prob_rows Gamma self tf_exp64 _ _ Hlink)
      by (rewrite tf_exp64_zero_pair; repeat constructor).
    rewrite tf_exp64_zero_pair.
    cbn [of_matrix map zip_with]. unfold spec_log_prob_row.
    rewrite xlogy_row_regular by (repeat constructor; lra).
    rewrite !row_sum_of_reals.
    replace (Rsum [1; 1]) with 2 by (unfold Rsum; simpl; lra).
    rewrite (lgamma_2 Gamma Gamma_1 Gamma_rec).
    cbn [of_reals map row_sum fold_right].
    rewrite (lgamma_1 Gamma Gamma_1).
    unfold Rsum. simpl. do 3 f_equal. ring.
  - rewrite (log_prob_rows Gamma self tf_exp64 _ _ Hlink)
      by (rewrite tf_exp64_shift_zero_pair; repeat constructor).
    rewrite tf_exp64_shift_zero_pair.
    cbn [of_matrix map zip_with]. unfold spec_log_prob_row.
    rewrite xlogy_row_regular by (repeat constructor; lra).
    rewrite !row_sum_of_reals.
    replace (Rsum [2; 2]) with 4 by (unfold Rsum; simpl; lra).
    rewrite (lgamma_4 Gamma Gamma_1 Gamma_rec).
    cbn [of_reals map row_sum fold_right].
    rewrite (lgamma_2 Gamma Gamma_1 Gamma_rec).
    unfold Rsum. simpl. do 3 f_equal.
    pose proof ln_three_halves. lra.
  - pose proof ln_three_halves_pos. lra.
Qed.

Lemma conditional_mean_shift_float64_witness :
  conditional_mean_rnd to_float64 dirichlet64
    (scalar_op fadd (of_matrix [[0; 0]]) (Finite (ln 2)))
  = conditional_mean_rnd to_float64 dirichlet64 (of_matrix [[0; 0]]).
Proof.
  pose proof unf_small as Hu. pose proof ovf_large as Ho.
  apply (conditional_mean_shift_float64 Gamma_model dirichlet64
           (lookup_singleton_eq _ _) Gamma_model_1 Gamma_model_rec).
  - repeat constructor; rewrite ?Rplus_0_l, ?exp_0, ?exp_ln by lra; lra.
  - repeat constructor; unfold Rsum; cbn [map fold_right];
      rewrite ?Rplus_0_l, ?exp_0, ?exp_ln by lra; lra.
Defined.

(** C10, the claim as stated fails.  With [F = [[0, -1000]]] and
    [c = 1000], [exp(-1000)] underflows to 0 and [exp(1000)] overflows:
    the mean of [F] is [[1, 0]] and the mean of [F + c = [[1000, 0]]] is
    [[NaN, 0]]. *)
Lemma conditional_mean_shift_overflow :
  scalar_op fadd (of_matrix [[0; - (1000)]]) (Finite 1000)
    = of_matrix [[1000; 0]] /\
  conditional_mean_rnd to_float64 dirichlet64 (of_matrix [[0; - (1000)]])
    = Ok [[Finite 1; Finite 0]] /\
  conditional_mean_rnd to_float64 dirichlet64 (of_matrix [[1000; 0]])
    = Ok [[NaN; Finite 0]] /\
  [[NaN; Finite 0]] <> [[Finite 1; Finite 0]].
Proof.
  split; [| split; [| split; [| discriminate]]].
  - rewrite scalar_add_of_matrix. cbn [of_matrix of_reals map].
    do 3 f_equal; [f_equal; lra | f_equal; f_equal; lra].
  - rewrite (conditional_mean_rnd_rows to_float64 dirichlet64 tf_exp64
               (lookup_singleton_eq _ _)).
    replace (- (1000)) with (- 1000) by lra.
    rewrite tf_exp64_underflow_pair.
    cbn [map]. rewrite mean_row64_one_zero. reflexivity.
  - rewrite (conditional_mean_rnd_rows to_float64 dirichlet64 tf_exp64
               (lookup_singleton_eq _ _)), tf_exp64_overflow_pair.
    cbn [map]. rewrite mean_row64_overflow. reflexivity.
Qed.

(** ** Sampling in float64 *)

Lemma _sample_dir_rnd_rows (rnd : num -> num) (rng : Type)
    (tf_random_gamma : rng -> nat -> vector -> option Z -> tensor * rng)
    (concentration : vector) (n : nat) (seed : option Z) (g : rng) :
  _sample_dir_rnd rnd tf_random_gamma concentration n seed g
  = (Ok (map (mean_row_rnd rnd) (fst (tf_random_gamma g n concentration seed))),
     snd (tf_random_gamma g n concentration seed)).
Proof.
  unfold _sample_dir_rnd.
  destruct (tf_random_gamma g n concentration seed) as [G g'].
  cbn [fst snd]. f_equal. unfold tf_reduce_sum_keepdims_rnd.
  apply bcast2_map_r. intros row _. apply bcast_stretch_r.
Qed.

Lemma _sample_dir_rnd_identity (rng : Type)
    (tf_random_gamma : rng -> nat -> vector -> option Z -> tensor * rng)
    (concentration : vector) (n : nat) (seed : option Z) (g : rng) :
  _sample_dir_rnd (fun x => x) tf_random_gamma concentration n seed g
  = _sample_dir tf_random_gamma concentration n seed g.
Proof. reflexivity. Qed.

Lemma mean_row64_exact (row : list R) :
  Forall (fun a => unf < a) row -> Rsum row < ovf ->
  Forall (fun a => unf < a / Rsum row) row ->
  mean_row_rnd to_float64 (of_reals row)
  = of_reals (map (fun x => x / Rsum row) row).
Proof.
  intros Hrow Hsum Hq. rewrite (mean_row64 row Hrow Hsum). f_equal.
  apply map_ext_Forall. eapply Forall_impl; [exact Hq |].
  intros a Ha. simpl. apply flush_kept, Ha.
Qed.

Lemma kernel_gamma_seeded (g : nat) :
  kernel_gamma g 1 [Finite 1; Finite 2] (Some 7%Z)
  = (of_matrix [[9 + INR g; 10 + INR g]], S g).
Proof.
  unfold kernel_gamma. cbn [repeat map default of_matrix of_reals].
  rewrite !Rabs_pos_eq by lra. change (IZR (Z.abs (Datatypes.id 7%Z))) with 7.
  f_equal. f_equal. f_equal; [f_equal; lra | f_equal; f_equal; lra].
Qed.

Lemma mean_row64_nine_ten :
  mean_row_rnd to_float64 (of_reals [9; 10]) = of_reals [9 / 19; 10 / 19].
Proof.
  pose proof unf_small. pose proof ovf_large.
  assert (Hs : Rsum [9; 10] = 19) by (unfold Rsum; cbn [fold_right]; lra).
  rewrite mean_row64_exact; rewrite ?Hs.
  - reflexivity.
  - repeat constructor; lra.
  - lra.
  - repeat constructor; lra.
Qed.

Lemma mean_row64_ten_eleven :
  mean_row_rnd to_float64 (of_reals [10; 11]) = of_reals [10 / 21; 11 / 21].
Proof.
  pose proof unf_small. pose proof ovf_large.
  assert (Hs : Rsum [10; 11] = 21) by (unfold Rsum; cbn [fold_right]; lra).
  rewrite mean_row64_exact; rewrite ?Hs.
  - reflexivity.
  - repeat constructor; lra.
  - lra.
  - repeat constructor; lra.
Qed.

Lemma sample_rows64 (K : nat) (draws : list (list R)) :
  Forall (fun row => length row = K /\ Forall (fun v => unf < v) row /\
                     Rsum row < ovf) draws ->
  map (mean_row_rnd to_float64) (of_matrix draws)
    = of_matrix (map (fun row => map (fun x => flush (x / Rsum row)) row) draws) /\
  Forall (fun srow => length srow = K /\ Forall (fun x => 0 <= x <= 1) srow)
         (map (fun row => map (fun x => flush (x / Rsum row)) row) draws) /\
  Forall2 (fun row srow =>
             K <> 0%nat -> Forall (fun a => unf < a / Rsum row) row ->
             Rsum srow = 1)
          draws (map (fun row => map (fun x => flush (x / Rsum row)) row) draws).
Proof.
  induction 1 as [| row draws' (Hlen & Hrow & Hsum) _ (IH1 & IH2 & IH3)].
  - repeat split; constructor.
  - cbn [map]. rewrite !of_matrix_cons. cbn [map]. split; [| split].
    + rewrite (mean_row64 row Hrow Hsum), IH1. reflexivity.
    + constructor; [| exact IH2]. split.
      * rewrite length_map. exact Hlen.
      * apply mean_row64_bounds, Hrow.
    + constructor; [| exact IH3]. intros HK Hq.
      apply mean_row64_sum; [exact Hrow | | exact Hq].
      intros ->. apply HK. symmetry. exact Hlen.
Qed.

(** C7 (as amended).  [_sample_dir] asks the backend for the gamma draws
    with the [n], the concentration and the seed it was given, from the
    current state of the generator, and returns each row of draws divided
    by its sum, with the state the backend left.  When the draws are [n]
    rows of [K] positive float64 values whose sum does not overflow, the
    samples are [n] rows of [K] entries in [0, 1], and a row sums to 1 when
    [K >= 1] and none of its quotients underflows.  The samples are a
    function of the draws: two calls whose draws are equal return equal
    samples, whatever the seeds and the states of the generator. *)
Theorem sample_dir_float64 (rng : Type)
    (tf_random_gamma : rng -> nat -> vector -> option Z -> tensor * rng)
    (concentration : vector) (n : nat) (seed : option Z) (g : rng)
    (draws : list (list R)) :
  fst (tf_random_gamma g n concentration seed) = of_matrix draws ->
  length draws = n ->
  Forall (fun row => length row = length concentration /\
                     Forall (fun v => unf < v) row /\
                     Rsum row < ovf) draws ->
  (exists samples : list (list R),
     _sample_dir_rnd to_float64 tf_random_gamma concentration n seed g
       = (Ok (of_matrix samples), snd (tf_random_gamma g n concentration seed)) /\
     samples = map (fun row => map (fun x => flush (x / Rsum row)) row) draws /\
     length samples = n /\
     Forall (fun srow => length srow = length concentration /\
                         Forall (fun x => 0 <= x <= 1) srow) samples /\
     Forall2 (fun row srow =>
                concentration <> [] ->
                Forall (fun a => unf < a / Rsum row) row ->
                Rsum srow = 1) draws samples) /\
  (forall (seed' : option Z) (g' : rng),
     fst (tf_random_gamma g' n concentration seed')
       = fst (tf_random_gamma g n concentration seed) ->
     fst (_sample_dir_rnd to_float64 tf_random_gamma concentration n seed' g')
     = fst (_sample_dir_rnd to_float64 tf_random_gamma concentration n seed g)).
Proof.
  intros HG Hlen Hdraws.
  destruct (sample_rows64 (length concentration) draws Hdraws) as (H1 & H2 & H3).
  split.
  - eexists. split; [| split; [reflexivity | split; [| split]]].
    + rewrite _sample_dir_rnd_rows, HG, H1. reflexivity.
    + rewrite length_map. exact Hlen.
    + exact H2.
    + eapply Forall2_impl; [exact H3 |]. intros row srow Hsum Hne Hq.
      apply Hsum; [| exact Hq]. intros Hz. apply Hne.
      destruct concentration; [reflexivity | discriminate].
  - intros seed' g' Heq. rewrite !_sample_dir_rnd_rows. cbn [fst].
    rewrite Heq. reflexivity.
Qed.

Lemma sample_dir_float64_witness :
  exists samples : list (list R),
    _sample_dir_rnd to_float64 kernel_gamma [Finite 1; Finite 2] 1 (Some 7%Z) 0%nat
      = (Ok (of_matrix samples), 1%nat) /\
    length samples = 1%nat /\
    Forall (fun srow => length srow = 2%nat /\
                        Forall (fun x => 0 <= x <= 1) srow) samples.
Proof.
  pose proof unf_small as Hu. pose proof ovf_large as Ho.
  destruct (sample_dir_float64 nat kernel_gamma [Finite 1; Finite 2] 1
              (Some 7%Z) 0%nat [[9; 10]]) as [(samples & Hs & _ & Hlen & Hb & _) _].
  - rewrite kernel_gamma_seeded. cbn [fst INR]. rewrite !Rplus_0_r. reflexivity.
  - reflexivity.
  - repeat constructor; unfold Rsum; cbn [fold_right]; lra.
  - exists samples. rewrite kernel_gamma_seeded in Hs. cbn [snd] in Hs.
    split; [exact Hs |]. split; [exact Hlen | exact Hb].
Defined.

(** C7, the claim as stated fails.  The code passes the seed to the backend
    and nothing else: with a sampler whose draws depend on the seed and on
    the state that every call advances, two successive calls with the same
    concentration, [n] and explicit seed return different samples.  And for
    the empty concentration the returned row is empty: its sum is 0, not
    1. *)
Lemma sample_dir_seed_not_enough :
  _sample_dir_rnd to_float64 kernel_gamma [Finite 1; Finite 2] 1 (Some 7%Z) 0%nat
    = (Ok (of_matrix [[9 / 19; 10 / 19]]), 1%nat) /\
  _sample_dir_rnd to_float64 kernel_gamma [Finite 1; Finite 2] 1 (Some 7%Z) 1%nat
    = (Ok (of_matrix [[10 / 21; 11 / 21]]), 2%nat) /\
  9 / 19 <> 10 / 21 /\
  _sample_dir_rnd to_float64 kernel_gamma [] 1 (Some 7%Z) 0%nat
    = (Ok [[]], 1%nat) /\
  row_sum_rnd to_float64 [] <> Finite 1.
Proof.
  split; [| split; [| split; [lra | split]]].
  - rewrite _sample_dir_rnd_rows, kernel_gamma_seeded. cbn [fst snd INR].
    rewrite !Rplus_0_r. cbn [of_matrix map]. rewrite mean_row64_nine_ten.
    reflexivity.
  - rewrite _sample_dir_rnd_rows, kernel_gamma_seeded. cbn [fst snd INR].
    replace (9 + 1) with 10 by lra. replace (10 + 1) with 11 by lra.
    cbn [of_matrix map]. rewrite mean_row64_ten_eleven. reflexivity.
  - reflexivity.
  - unfold row_sum_rnd. cbn [fold_right]. intros [= H]. lra.
Qed.

(** ** One category in float64 *)

Lemma mean_row64_one_category (a : R) :
  unf < a -> a < ovf -> mean_row_rnd to_float64 [Finite a] = [Finite 1].
Proof.
  intros Hlo Hhi. pose proof unf_pos.
  assert (Hk : kept (a + 0))
    by (right; rewrite Rabs_pos_eq by lra; lra).
  unfold mean_row_rnd, row_sum_rnd. cbn [fold_right map].
  rewrite (fadd64_kept a 0 Hk).
  assert (Hone : a / (a + 0) = 1) by (field; lra).
  rewrite (fdiv64_kept a (a + 0));
    [| lra | rewrite Hone; apply kept_moderate; lra].
  rewrite Hone. reflexivity.
Qed.

Lemma variance_entry64_one_category (a : R) :
  unf < a -> a < ovf ->
  (unf < a * a -> variance_entry_rnd to_float64 (Finite a) (Finite a) = Finite 0) /\
  (a * a <= unf -> variance_entry_rnd to_float64 (Finite a) (Finite a) = NaN).
Proof.
  intros Hlo Hhi. pose proof unf_pos as Hu. pose proof unf_small as Hus.
  pose proof ovf_large as Ho.
  unfold variance_entry_rnd. rewrite fpow_rnd_2.
  rewrite (fsub64_kept a a) by (left; lra).
  rewrite (fmul64_kept a (a - a)) by (left; ring).
  replace (a * (a - a)) with 0 by ring.
  rewrite (fmul64_one a Hlo Hhi).
  assert (Hzero : to_float64 (Finite 0) = Finite 0)
    by (apply to_float64_kept; left; reflexivity).
  destruct (fmul64_nonneg a a ltac:(nra)) as [[Hq ->] | [Hq ->]].
  - assert (Hden : fmul_rnd to_float64 PosInf
                     (fadd_rnd to_float64 (Finite a) (Finite 1)) = PosInf).
    { destruct (fadd64_nonneg a 1 ltac:(lra)) as [[_ ->] | [_ ->]];
        [reflexivity |].
      unfold fmul_rnd. cbn [fmul]. rewrite flush_kept by lra.
      rewrite signed_inf_pos by lra. reflexivity. }
    rewrite Hden. split; [intros _ | intros Hsmall; lra].
    unfold fdiv_rnd. cbn [fdiv]. exact Hzero.
  - destruct (Rle_dec (a * a) unf) as [Hsmall | Hbig].
    + split; [intros Hgt; lra | intros _].
      assert (Ha1 : a < 1) by nra.
      rewrite (fadd64_kept a 1) by (apply kept_moderate; lra).
      assert (Hsq0 : flush (a * a) = 0)
        by (unfold flush; destruct (Rle_dec (a * a) unf); [reflexivity | lra]).
      rewrite Hsq0. rewrite (fmul64_kept 0 (a + 1)) by (left; ring).
      replace (0 * (a + 1)) with 0 by ring.
      unfold fdiv_rnd. rewrite fdiv_by_zero by reflexivity.
      rewrite signed_inf_zero. reflexivity.
    + split; [intros _ | intros Hle; lra].
      rewrite (flush_kept (a * a)) by lra.
      destruct (fadd64_nonneg a 1 ltac:(lra)) as [[_ ->] | [_ ->]].
      * unfold fmul_rnd. cbn [fmul]. rewrite signed_inf_pos by lra.
        change (to_float64 PosInf) with PosInf.
        unfold fdiv_rnd. cbn [fdiv]. exact Hzero.
      * rewrite (flush_kept (a + 1)) by lra.
        destruct (fmul64_nonneg (a * a) (a + 1) ltac:(nra)) as [[_ ->] | [_ ->]].
        -- unfold fdiv_rnd. cbn [fdiv]. exact Hzero.
        -- rewrite (flush_kept (a * a * (a + 1))) by nra.
           assert (Hq0 : 0 / (a * a * (a + 1)) = 0) by (unfold Rdiv; ring).
           rewrite (fdiv64_kept 0 (a * a * (a + 1)));
             [| nra | rewrite Hq0; left; reflexivity].
           rewrite Hq0. reflexivity.
Qed.

Lemma variance_row64_one_category (a : R) :
  unf < a -> a < ovf ->
  (unf < a * a -> variance_row_rnd to_float64 [Finite a] = [Finite 0]) /\
  (a * a <= unf -> variance_row_rnd to_float64 [Finite a] = [NaN]).
Proof.
  intros Hlo Hhi. pose proof unf_pos.
  assert (Hsum : row_sum_rnd to_float64 [Finite a] = Finite a).
  { unfold row_sum_rnd. cbn [fold_right].
    rewrite (fadd64_kept a 0) by (right; rewrite Rabs_pos_eq by lra; lra).
    f_equal. lra. }
  unfold variance_row_rnd. rewrite Hsum. cbn [map].
  destruct (variance_entry64_one_category a Hlo Hhi) as [H0 Hnan].
  split; intros Hsq; [rewrite (H0 Hsq) | rewrite (Hnan Hsq)]; reflexivity.
Qed.

(** With a single category (K = 1) and a concentration inside the range of
    float64, the conditional mean is exactly 1; the conditional variance is
    exactly 0 when the square of the concentration does not underflow, and
    NaN (0 / 0) when it does. *)
Theorem moments_single_category_float64 (self : obj) (link : tensor -> tensor)
    (F : tensor) (alpha : list R) :
  self !! "invlink" = Some (VFun link) ->
  link F = of_matrix (map (fun a => [a]) alpha) ->
  Forall (fun a => unf < a /\ a < ovf) alpha ->
  conditional_mean_rnd to_float64 self F
    = Ok (of_matrix (map (fun _ => [1]) alpha)) /\
  (Forall (fun a => unf < a * a) alpha ->
   conditional_variance_rnd to_float64 self F
     = Ok (of_matrix (map (fun _ => [0]) alpha))) /\
  (Forall (fun a => a * a <= unf) alpha ->
   conditional_variance_rnd to_float64 self F
     = Ok (map (fun _ => [NaN]) alpha)).
Proof.
  intros Hlink Halpha Hrange.
  rewrite (conditional_mean_rnd_rows to_float64 self link Hlink).
  rewrite (conditional_variance_rnd_rows to_float64 self link Hlink).
  rewrite Halpha. unfold of_matrix. rewrite !map_map.
  split; [| split].
  - f_equal. apply map_ext_Forall. eapply Forall_impl; [exact Hrange |].
    intros a [Hlo Hhi]. simpl. apply mean_row64_one_category; assumption.
  - intros Hsq. f_equal. apply map_ext_Forall.
    rewrite Forall_forall in Hrange. rewrite Forall_forall in Hsq.
    apply Forall_forall. intros a Ha. destruct (Hrange a Ha) as [Hlo Hhi].
    apply (variance_row64_one_category a Hlo Hhi), Hsq, Ha.
  - intros Hsq. f_equal. apply map_ext_Forall.
    rewrite Forall_forall in Hrange. rewrite Forall_forall in Hsq.
    apply Forall_forall. intros a Ha. destruct (Hrange a Ha) as [Hlo Hhi].
    apply (variance_row64_one_category a Hlo Hhi), Hsq, Ha.
Qed.

Lemma moments_single_category_float64_witness :
  conditional_mean_rnd to_float64 dirichlet64 (of_matrix [[0]])
    = Ok (of_matrix [[1]]) /\
  conditional_variance_rnd to_float64 dirichlet64 (of_matrix [[0]])
    = Ok (of_matrix [[0]]).
Proof.
  pose proof unf_small as Hu. pose proof ovf_large as Ho.
  assert (Hone : tf_exp64 (of_matrix [[0]]) = of_matrix (map (fun a => [a]) [1])).
  { rewrite tf_exp64_in_range by (repeat constructor; apply exp_zero_kept).
    simpl. rewrite exp_0. reflexivity. }
  destruct (moments_single_category_float64 dirichlet64 tf_exp64
              (of_matrix [[0]]) [1] (lookup_singleton_eq _ _) Hone)
    as (Hm & Hv & _).
  - repeat constructor; lra.
  - split; [exact Hm |]. apply Hv. repeat constructor. lra.
Defined.

(** ** Shifting up inside a box *)

Section BoxShift.

Variables l h : R.
Hypothesis Hl : 0 < l <= 1.
Hypothesis Hh : 1 <= h.
Hypothesis Hlo : unf < l * l / (h * h * (h + 1)).
Hypothesis Hhi : h * h * (h + 1) < ovf.




End BoxShift.


